(** * irc3pinglist: ping lists and fuzzy nick resolution

    A shallow embedding of [irc3pinglist.py] and the properties its
    specification states about it.

    Conventions of the embedding.
    - A Python [str] is a [string] whose characters are the code points
      below 256 (a character of the string is one code point, not a byte of
      an encoding); [\w] is the class Python 3 gives a [str] pattern, read
      off the Unicode database on these code points.
    - A [set] of nicks is a [gset string]; the storage [self.bot.db] is a
      dictionary [gmap string (gset string)] whose subscript raises
      [KeyError] on a missing key, as the [except KeyError] clauses of the
      source expect.
    - A command is a computation over the state of the bot that either
      finishes or raises; what it sent so far stays sent.
    - The names the module reads without defining them ([ircutils.isNick],
      [irc.state], [irc.error], [textwrap.wrap]) are taken as parameters.
      A local variable read before it is bound raises [UnboundLocalError],
      as in Python. *)

From Stdlib Require Import Ascii.
From stdpp Require Import base strings gmap list sorting.

Local Open Scope char_scope.
Local Open Scope stdpp_scope.
Local Set Warnings "-clear-no-such-hyp".

(** ** Python values and exceptions *)

(** The values a command argument takes: a [str] or [None]. *)
Abbreviation pyval := (option string).

Inductive exn : Type :=
  | KeyError (key : pyval)
  | UnboundLocalError (name : string)
  | TypeError
  | ReError.

Inductive result (A : Type) : Type :=
  | Ok (a : A)
  | Raise (e : exn).
Arguments Ok {A} a.
Arguments Raise {A} e.

(** ** The fragment of Python's [re] the module uses *)

Module re.

Definition in_range (lo hi c : ascii) : bool :=
  (nat_of_ascii lo <=? nat_of_ascii c)%nat && (nat_of_ascii c <=? nat_of_ascii hi)%nat.

Definition is_alnum (c : ascii) : bool :=
  in_range "a" "z" c || in_range "A" "Z" c || in_range "0" "9" c.

(** The alphabetic characters below 256 ([str.isalpha]): the ASCII letters,
    the ordinal indicators and the micro sign (170, 186, 181), and the
    accented letters 192-214, 216-246, 248-255. *)
Definition is_letter (c : ascii) : bool :=
  in_range "a" "z" c || in_range "A" "Z" c
  || (nat_of_ascii c =? 170)%nat || (nat_of_ascii c =? 181)%nat
  || (nat_of_ascii c =? 186)%nat
  || in_range "192" "214" c || in_range "216" "246" c || in_range "248" "255" c.

(** The digits and other numeric characters below 256 ([str.isdigit],
    [str.isnumeric]): [0-9], the superscripts 178, 179, 185 and the
    fractions 188-190. *)
Definition is_digit (c : ascii) : bool :=
  in_range "0" "9" c
  || (nat_of_ascii c =? 178)%nat || (nat_of_ascii c =? 179)%nat
  || (nat_of_ascii c =? 185)%nat
  || in_range "188" "190" c.

(** [\w] of a [str] pattern: alphanumeric in the sense of Unicode, or the
    underscore. *)
Definition is_word (c : ascii) : bool :=
  is_letter c || is_digit c || Ascii.eqb c "_".

Definition one_of (cs : list ascii) (c : ascii) : bool :=
  existsb (Ascii.eqb c) cs.

Inductive atom : Type :=
  | Lit (c : ascii)             (* the character itself *)
  | AnyChar                      (* [.] : anything but a newline *)
  | Word                         (* [\w] *)
  | OneOf (cs : list ascii).     (* [[...]] *)

Inductive item : Type :=
  | One (a : atom)
  | Many (a : atom)              (* [a*] *)
  | Many1 (a : atom)             (* [a+] *)
  | Maybe (a : atom)             (* [a?] *)
  | Bos                          (* [\A] *)
  | Eos.                         (* [\Z] *)

Definition pattern := list item.

Inductive token : Type :=
  | TAtom (a : atom) | TStar | TPlus | TQuest | TBos | TEos.

Inductive mode : Type :=
  | Top                          (* ordinary text of the pattern *)
  | Esc                          (* just after a backslash *)
  | InSet (acc : list ascii).    (* inside [[...]], members read so far *)

(** One pass over the pattern text.  Syntax outside the fragment (groups,
    alternation, anchors [^ $], braces, ranges and negation in a set, the
    other backslash classes) is refused with [None]. *)
Fixpoint lex (m : mode) (s : string) : option (list token) :=
  match s with
  | EmptyString => match m with Top => Some [] | _ => None end
  | String c s' =>
    match m with
    | Top =>
        if Ascii.eqb c "\" then lex Esc s'
        else if Ascii.eqb c "[" then lex (InSet []) s'
        else if Ascii.eqb c "." then cons (TAtom AnyChar) <$> lex Top s'
        else if Ascii.eqb c "*" then cons TStar <$> lex Top s'
        else if Ascii.eqb c "+" then cons TPlus <$> lex Top s'
        else if Ascii.eqb c "?" then cons TQuest <$> lex Top s'
        else if one_of ["^"; "$"; "("; ")"; "{"; "|"]%char c then None
        else cons (TAtom (Lit c)) <$> lex Top s'
    | Esc =>
        if Ascii.eqb c "A" then cons TBos <$> lex Top s'
        else if Ascii.eqb c "Z" then cons TEos <$> lex Top s'
        else if Ascii.eqb c "w" then cons (TAtom Word) <$> lex Top s'
        else if is_alnum c then None
        else cons (TAtom (Lit c)) <$> lex Top s'
    | InSet acc =>
        if Ascii.eqb c "]" then
          match acc with
          | [] => None
          | _ => cons (TAtom (OneOf (rev acc))) <$> lex Top s'
          end
        else if one_of ["\"; "["]%char c then None
        else if Ascii.eqb c "^" then
          match acc with
          | [] => None
          | _ => lex (InSet (c :: acc)) s'
          end
        else if Ascii.eqb c "-" then
          match acc, s' with
          | [], _ => lex (InSet (c :: acc)) s'
          | _, String "]" _ => lex (InSet (c :: acc)) s'
          | _, _ => None
          end
        else lex (InSet (c :: acc)) s'
    end
  end.

(** A quantifier binds the atom before it; one with nothing to repeat is
    an error. *)
Fixpoint assemble (ts : list token) : option pattern :=
  match ts with
  | [] => Some []
  | TAtom a :: ts' =>
      match ts' with
      | TStar :: ts'' => cons (Many a) <$> assemble ts''
      | TPlus :: ts'' => cons (Many1 a) <$> assemble ts''
      | TQuest :: ts'' => cons (Maybe a) <$> assemble ts''
      | _ => cons (One a) <$> assemble ts'
      end
  | TBos :: ts' => cons Bos <$> assemble ts'
  | TEos :: ts' => cons Eos <$> assemble ts'
  | TStar :: _ | TPlus :: _ | TQuest :: _ => None
  end.

(** [re.compile]. *)
Definition compile (s : string) : option pattern :=
  lex Top s ≫= assemble.

Definition atom_matches (a : atom) (c : ascii) : bool :=
  match a with
  | Lit c' => Ascii.eqb c c'
  | AnyChar => negb (Ascii.eqb c "010")
  | Word => is_word c
  | OneOf cs => one_of cs c
  end.

(** Zero or more [a], then the continuation [k]; the flag tells whether
    the position is still the start of the string. *)
Fixpoint star (a : atom) (k : bool → string → bool) (at_start : bool)
    (s : string) : bool :=
  k at_start s ||
  match s with
  | String c s' => atom_matches a c && star a k false s'
  | EmptyString => false
  end.

Fixpoint matches_from (p : pattern) (at_start : bool) (s : string) : bool :=
  match p with
  | [] => true
  | One a :: p' =>
      match s with
      | String c s' => atom_matches a c && matches_from p' false s'
      | EmptyString => false
      end
  | Maybe a :: p' =>
      match s with
      | String c s' => atom_matches a c && matches_from p' false s'
      | EmptyString => false
      end || matches_from p' at_start s
  | Many a :: p' => star a (matches_from p') at_start s
  | Many1 a :: p' =>
      match s with
      | String c s' => atom_matches a c && star a (matches_from p') false s'
      | EmptyString => false
      end
  | Bos :: p' => at_start && matches_from p' at_start s
  | Eos :: p' =>
      match s with EmptyString => matches_from p' at_start s | _ => false end
  end.

(** [pattern.match(string)]: a match at the start of [s], as a truth
    value. *)
Definition match_ (p : pattern) (s : string) : bool := matches_from p true s.

(** [re.match(pattern, string)] on pattern text. *)
Definition match_str (pat s : string) : result bool :=
  match compile pat with
  | Some p => Ok (match_ p s)
  | None => Raise ReError
  end.

(** The characters [re.escape] puts a backslash before:
    [()[]{}?*+-|^$\.&~# \t\n\r\v\f]. *)
Definition special_chars : list ascii :=
  ["("; ")"; "["; "]"; "{"; "}"; "?"; "*"; "+"; "-"; "|"; "^"; "$"; "\";
   "."; "&"; "~"; "#"; " "; "009"; "010"; "013"; "011"; "012"]%char.

(** [re.escape]. *)
Fixpoint escape (s : string) : string :=
  match s with
  | EmptyString => EmptyString
  | String c s' =>
      if one_of special_chars c then String "\" (String c (escape s'))
      else String c (escape s')
  end.

End re.

(** ** Module-level functions *)

(** [_validate_listname(name)]: the name matches [\A\w+\Z]. *)
Definition _validate_listname (name : string) : result bool :=
  match re.compile "\A\w+\Z" with
  | Some listname_regex =>
      if negb (re.match_ listname_regex name) then Ok false else Ok true
  | None => Raise ReError
  end.

(** [_nick_match(nick1, nick2)]: equal, or [nick2] matches
    ['%s[-_|]' % re.escape(nick1)]. *)
Definition _nick_match (nick1 nick2 : string) : result bool :=
  if String.eqb nick1 nick2 then Ok true
  else
    match re.match_str (re.escape nick1 +:+ "[-_|]") nick2 with
    | Ok true => Ok true
    | Ok false => Ok false
    | Raise e => Raise e
    end.

(** ['%s: %s' % (a, b)] *)
Definition fmt2 (a b : string) : string := a +:+ ": " +:+ b.

(** ['%s' % v] for a [str] or [None]. *)
Definition str_of (v : pyval) : string := default "None" v.

(** [sep.join(l)] *)
Fixpoint join (sep : string) (l : list string) : string :=
  match l with
  | [] => ""
  | [x] => x
  | x :: l' => x +:+ sep +:+ join sep l'
  end.

(** [sorted(s)]: the elements in increasing order of [str]. *)
Definition sorted (s : gset string) : list string :=
  merge_sort String.le (elements s).

Global Instance result_ret : MRet result := @Ok.
Global Instance result_bind : MBind result := λ A B k r,
  match r with Ok a => k a | Raise e => Raise e end.

(** A [for] loop that updates one local variable. *)
Fixpoint for_acc {A S} (l : list A) (acc : S) (body : A → S → result S)
    : result S :=
  match l with
  | [] => Ok acc
  | x :: l' => acc' ← body x acc; for_acc l' acc' body
  end.

(** Lines 265-272 of [doping]: the nicks of the list and every user of the
    channel that [_nick_match] relates to one of them, sorted.  [users]
    is the lookup [irc.state.channels[target].users], made once per nick of
    the list. *)
Definition resolve (users : result (gset string)) (pinglist : gset string)
    : result (list string) :=
  ping_set ←
    for_acc (elements pinglist) pinglist (λ nick ping_set,
      us ← users;
      for_acc (elements us) ping_set (λ nick2 ping_set,
        if String.eqb nick nick2 then Ok ping_set
        else
          m ← _nick_match nick nick2;
          if (m : bool) then Ok ({[nick2]} ∪ ping_set) else Ok ping_set));
  Ok (sorted ping_set).

(** ** The bot *)

Inductive effect : Type :=
  | Privmsg (target text : string)      (* [self.bot.privmsg(target, text)] *)
  | IrcError (text : string).           (* [irc.error(text)] *)

Record world : Type := World {
  db : gmap string (gset string);        (* [self.bot.db] *)
  channels : gmap string (gset string);  (* [irc.state.channels], users of each *)
  sent : list effect                     (* what was sent, oldest first *)
}.

(** A local variable of a function: not assigned yet, or holding a value. *)
Inductive local (A : Type) : Type :=
  | Unbound
  | Bound (a : A).
Arguments Unbound {A}.
Arguments Bound {A} a.

Definition M (A : Type) : Type := world → result A * world.

Global Instance M_ret : MRet M := λ A a w, (Ok a, w).
Global Instance M_bind : MBind M := λ A B k m w,
  match m w with
  | (Ok a, w') => k a w'
  | (Raise e, w') => (Raise e, w')
  end.

Definition raise {A} (e : exn) : M A := λ w, (Raise e, w).

Definition lift {A} (r : result A) : M A := λ w, (r, w).

(** [try: m  except KeyError: ...]; [None] when the handler is to run. *)
Definition catch_KeyError {A} (m : M A) : M (option A) := λ w,
  match m w with
  | (Ok a, w') => (Ok (Some a), w')
  | (Raise (KeyError _), w') => (Ok None, w')
  | (Raise e, w') => (Raise e, w')
  end.

(** Reading a local variable. *)
Definition read {A} (name : string) (v : local A) : M A :=
  match v with
  | Bound a => mret a
  | Unbound => raise (UnboundLocalError name)
  end.

(** [args[key]] and [args.get(key, None)] *)
Definition args_getitem (args : gmap string pyval) (key : string) : M pyval :=
  match args !! key with
  | Some v => mret v
  | None => raise (KeyError (Some key))
  end.

Definition args_get (args : gmap string pyval) (key : string) : pyval :=
  match args !! key with
  | Some v => v
  | None => None
  end.

(** [self.bot.db[key]]; [None] is a key no list has. *)
Definition db_getitem (key : pyval) : M (gset string) := λ w,
  match key ≫= (db w !!.) with
  | Some s => (Ok s, w)
  | None => (Raise (KeyError key), w)
  end.

(** [key in self.bot.db] *)
Definition db_contains (key : pyval) : M bool := λ w,
  (Ok (bool_decide (is_Some (key ≫= (db w !!.)))), w).

(** [del self.bot.db[key]] *)
Definition db_delitem (key : pyval) : M unit := λ w,
  match key with
  | Some k =>
      match db w !! k with
      | Some _ => (Ok (), World (delete k (db w)) (channels w) (sent w))
      | None => (Raise (KeyError key), w)
      end
  | None => (Raise (KeyError key), w)
  end.

(** [self.bot.db[key].update(nicks)]: the set stored under [key] is changed
    in place. *)
Definition db_update (key : pyval) (nicks : gset string) : M unit := λ w,
  match key with
  | Some k =>
      match db w !! k with
      | Some s => (Ok (), World (<[k := s ∪ nicks]> (db w)) (channels w) (sent w))
      | None => (Raise (KeyError key), w)
      end
  | None => (Raise (KeyError key), w)
  end.

(** [self.bot.db[key].difference_update(nicks)]; [nicks] may be [None], which
    is not iterable. *)
Definition db_difference_update (key : pyval) (nicks : option (gset string))
    : M unit := λ w,
  match key with
  | Some k =>
      match db w !! k with
      | Some s =>
          match nicks with
          | Some ns =>
              (Ok (), World (<[k := s ∖ ns]> (db w)) (channels w) (sent w))
          | None => (Raise TypeError, w)
          end
      | None => (Raise (KeyError key), w)
      end
  | None => (Raise (KeyError key), w)
  end.

(** [self.bot.db.keys()] *)
Definition db_keys : M (gset string) := λ w, (Ok (dom (db w)), w).

(** [irc.state.channels] *)
Definition irc_channels : M (gmap string (gset string)) := λ w,
  (Ok (channels w), w).

Definition privmsg (target text : string) : M unit := λ w,
  (Ok (), World (db w) (channels w) (sent w ++ [Privmsg target text])).

Definition irc_error (text : string) : M unit := λ w,
  (Ok (), World (db w) (channels w) (sent w ++ [IrcError text])).

(** [for x in l: body], where the body may execute [return]: [true] when it
    did. *)
Fixpoint for_return {A} (l : list A) (body : A → M bool) : M bool :=
  match l with
  | [] => mret false
  | x :: l' =>
      returned ← body x;
      if (returned : bool) then mret true else for_return l' body
  end.

(** [for x in l: body] *)
Fixpoint for_each {A} (l : list A) (body : A → M unit) : M unit :=
  match l with
  | [] => mret ()
  | x :: l' => body x;; for_each l' body
  end.

(** [irc.state.channels[target].users] *)
Definition channel_users (chans : gmap string (gset string)) (target : string)
    : result (gset string) :=
  match chans !! target with
  | Some users => Ok users
  | None => Raise (KeyError (Some target))
  end.

(** ** The commands of the plugin *)

Record IrcString : Type := { mask_nick : string }.   (* [mask.nick] *)

Section Pinglist.

(** [ircutils.isNick] and [textwrap.wrap(text, width=256,
    break_long_words=False, break_on_hyphens=False)]. *)
Variable isNick : string → bool.
Variable wrap : string → list string.

(** The body of [add].  [nicks] is the local variable of that name as it
    is on entry. *)
Definition add_from (nicks : local (option (list string)))
    (mask : IrcString) (target : string) (args : gmap string pyval)
    : M unit :=
  listname ← args_getitem args "<listname>";
  found ← catch_KeyError (db_getitem listname);
  match found with
  | None =>
      let msg := "No such ping list." in
      privmsg target (fmt2 (mask_nick mask) msg)
  | Some pinglist =>
      nicks ← read "nicks" nicks;
      checked ←
        match nicks with
        | None => mret (Some ({[mask_nick mask]} : gset string))
        | Some given =>
            let nicks : gset string := list_to_set given in
            returned ← for_return (elements nicks) (λ nick,
              if negb (isNick nick) then
                let msg := "Invalid nick: " +:+ nick in
                privmsg target (fmt2 (mask_nick mask) msg);; mret true
              else mret false);
            mret (if (returned : bool) then None else Some nicks)
        end;
      match checked with
      | None => mret ()
      | Some nicks =>
          db_update listname nicks;;
          let msg := "Nick(s) successfully added." in
          privmsg target (fmt2 (mask_nick mask) msg)
      end
  end.

(** The body of [remove]. *)
Definition remove_from (nicks : local (option (list string)))
    (mask : IrcString) (target : string) (args : gmap string pyval)
    : M unit :=
  listname ← args_getitem args "<listname>";
  found ← catch_KeyError (db_getitem listname);
  match found with
  | None =>
      let msg := "No such ping list." in
      privmsg target (fmt2 (mask_nick mask) msg)
  | Some pinglist =>
      nicks ← read "nicks" nicks;
      checked ←
        match nicks with
        | None => mret (Some ({[mask_nick mask]} : gset string))
        | Some given =>
            let nicks : gset string := list_to_set given in
            returned ← for_return (elements nicks) (λ nick,
              if negb (isNick nick) then
                let msg := "Invalid nick: " +:+ nick in
                privmsg target (fmt2 (mask_nick mask) msg);; mret true
              else mret false);
            mret (if (returned : bool) then None else Some nicks)
        end;
      match checked with
      | None => mret ()
      | Some nicks =>
          db_difference_update listname (Some nicks);;
          let msg := "Nick(s) successfully removed." in
          privmsg target (fmt2 (mask_nick mask) msg)
      end
  end.

(** The body of [create].  With [nicks] bound to [None] the source assigns
    the empty set to another variable, [nick], and [nicks] stays [None]. *)
Definition create_from (nicks : local (option (list string)))
    (mask : IrcString) (target : string) (args : gmap string pyval)
    : M unit :=
  listname ← args_getitem args "<listname>";
  valid ←
    match listname with
    | Some name => lift (_validate_listname name)
    | None => raise TypeError
    end;
  if negb valid then
    let msg := "List names can only contain alphanumeric characters." in
    privmsg target (fmt2 (mask_nick mask) msg)
  else
    nicks ← read "nicks" nicks;
    checked ←
      match nicks with
      | None => mret (Some (None : option (gset string)))
      | Some given =>
          let nicks : gset string := list_to_set given in
          returned ← for_return (elements nicks) (λ nick,
            if negb (isNick nick) then
              irc_error ("Invalid nick: " +:+ nick);; mret true
            else mret false);
          mret (if (returned : bool) then None else Some (Some nicks))
      end;
    match checked with
    | None => mret ()
    | Some nicks =>
        db_difference_update listname nicks;;
        let msg := "Pinglist " +:+ str_of listname +:+ " added." in
        privmsg target (fmt2 (mask_nick mask) msg)
    end.

(** [add], [remove] and [create] as the source has them: nothing binds
    [nicks] before its first use. *)
Definition add := add_from Unbound.
Definition remove := remove_from Unbound.
Definition create := create_from Unbound.

Definition delete (mask : IrcString) (target : string)
    (args : gmap string pyval) : M unit :=
  listname ← args_getitem args "<listname>";
  present ← db_contains listname;
  if negb present then
    let msg := "No such ping list." in
    privmsg target (fmt2 (mask_nick mask) msg)
  else
    db_delitem listname;;
    let msg := "Pinglist " +:+ str_of listname +:+ " deleted." in
    privmsg target (fmt2 (mask_nick mask) msg).

Definition show (mask : IrcString) (target : string)
    (args : gmap string pyval) : M unit :=
  listname ← args_getitem args "<listname>";
  found ← catch_KeyError (db_getitem listname);
  match found with
  | None =>
      let msg := "No such ping list." in
      privmsg target (fmt2 (mask_nick mask) msg)
  | Some pinglist =>
      let message := join " " (sorted pinglist) in
      let message := wrap message in
      let msg := "Members of " +:+ str_of listname +:+ ": " in
      privmsg target (fmt2 (mask_nick mask) msg);;
      for_each message (λ line, privmsg target line)
  end.

Definition pinglists (mask : IrcString) (target : string)
    (args : gmap string pyval) : M unit :=
  let message := "Current ping lists: " in
  privmsg target (fmt2 (mask_nick mask) message);;
  keys ← db_keys;
  let message := join " " (sorted keys) in
  let ping_message := wrap message in
  for_each ping_message (λ msg, privmsg target msg).

Definition doping (mask : IrcString) (target : string)
    (args : gmap string pyval) : M unit :=
  listname ← args_getitem args "<listname>";
  let channel := args_get args "<channel>" in
  message ← args_getitem args "<message";
  let target := match channel with Some c => c | None => target end in
  found ← catch_KeyError (db_getitem listname);
  match found with
  | None =>
      let msg := "No such ping list." in
      privmsg target (fmt2 (mask_nick mask) msg)
  | Some pinglist =>
      if bool_decide (pinglist = ∅) then
        let msg := "Ping list is empty." in
        privmsg target (fmt2 (mask_nick mask) msg)
      else
        chans ← irc_channels;
        pinglist ← lift (resolve (channel_users chans target) pinglist);
        let ping_message := wrap (join " " pinglist) in
        for_each ping_message (λ line, privmsg target line)
  end.

End Pinglist.

(** ** What the specification says, in its own words *)

(** A decoration character: one of [-], [_], [|]. *)
Definition decoration (c : ascii) : Prop := c = "-"%char ∨ c = "_"%char ∨ c = "|"%char.

(** [candidate] is [stored], or begins with [stored] followed immediately by
    a decoration character, whatever follows. *)
Definition spec_matches (stored candidate : string) : Prop :=
  candidate = stored ∨
  ∃ d rest, decoration d ∧ candidate = stored +:+ String d rest.

Definition code (c : ascii) : nat := nat_of_ascii c.

(** A letter: [a-z], [A-Z], or one of the letters beyond ASCII (the ordinal
    indicators 170 and 186, the micro sign 181, the accented letters
    192-214, 216-246 and 248-255). *)
Definition letter (c : ascii) : Prop :=
  (code "a" ≤ code c ≤ code "z") ∨ (code "A" ≤ code c ≤ code "Z") ∨
  code c = 170 ∨ code c = 181 ∨ code c = 186 ∨
  (192 ≤ code c ≤ 214) ∨ (216 ≤ code c ≤ 246) ∨ (248 ≤ code c ≤ 255).

(** A digit: [0-9], or one of the numeric characters beyond ASCII (the
    superscripts 178, 179, 185 and the fractions 188-190). *)
Definition digit (c : ascii) : Prop :=
  (code "0" ≤ code c ≤ code "9") ∨
  code c = 178 ∨ code c = 179 ∨ code c = 185 ∨ (188 ≤ code c ≤ 190).

(** A word character: a letter, a digit or the underscore. *)
Definition word_character (c : ascii) : Prop := letter c ∨ digit c ∨ c = "_"%char.

(** One or more word characters and nothing else. *)
Definition spec_valid_listname (name : string) : Prop :=
  name ≠ "" ∧ Forall word_character (String.list_ascii_of_string name).

(** The decoration characters, as a list. *)
Definition decorations : list ascii := ["-"; "_"; "|"]%char.

(** The pattern that matches the characters of [s] and nothing else. *)
Definition literal (s : string) : re.pattern :=
  (λ c, re.One (re.Lit c)) <$> String.list_ascii_of_string s.

(** The set [resolve] is to return: the stored nicks, and every present
    nick that differs from some stored nick which [_nick_match] relates it
    to. *)
Definition resolved (stored presence : gset string) (x : string) : Prop :=
  x ∈ stored ∨
  (x ∈ presence ∧ ∃ s, s ∈ stored ∧ x ≠ s ∧ _nick_match s x = Ok true).

(** ** What a command may change *)

(** A relation between the state before and the state after that holds of
    every step of a computation, however it ends. *)
Definition preserves (R : relation world) {A} (m : M A) : Prop :=
  ∀ w, R w (m w).2.

(** The lists of the store keep their names. *)
Definition same_keys (w w' : world) : Prop := dom (db w') = dom (db w).

(** Everything sent in between is a message to [dest]. *)
Definition sends_only_to (dest : string) (w w' : world) : Prop :=
  ∃ new, sent w' = sent w ++ new ∧
         Forall (λ e, ∃ text, e = Privmsg dest text) new.

(** The store and the channels are what they were. *)
Definition same_store (w w' : world) : Prop :=
  db w' = db w ∧ channels w' = channels w.

(** * Properties *)

(** ** Strings *)

Lemma append_empty_l s : "" +:+ s = s.
Proof. reflexivity. Qed.

Lemma append_cons c s r : String c s +:+ r = String c (s +:+ r).
Proof. reflexivity. Qed.

(** ** The regular expressions *)

Lemma is_word_spec c : re.is_word c = true ↔ word_character c.
Proof.
  unfold re.is_word, re.is_letter, re.is_digit, re.in_range,
    word_character, letter, digit, code.
  rewrite !orb_true_iff, !andb_true_iff, !Nat.leb_le, !Nat.eqb_eq,
    Ascii.eqb_eq.
  change (nat_of_ascii "192") with 192. change (nat_of_ascii "214") with 214.
  change (nat_of_ascii "216") with 216. change (nat_of_ascii "246") with 246.
  change (nat_of_ascii "248") with 248. change (nat_of_ascii "255") with 255.
  change (nat_of_ascii "188") with 188. change (nat_of_ascii "190") with 190.
  tauto.
Qed.

Lemma compile_listname_regex :
  re.compile "\A\w+\Z" = Some [re.Bos; re.Many1 re.Word; re.Eos].
Proof. reflexivity. Qed.

(** [\w*\Z] from a position past the start: only word characters remain. *)
Lemma star_word_eos s :
  re.star re.Word (re.matches_from [re.Eos]) false s = true ↔
  Forall word_character (String.list_ascii_of_string s).
Proof.
  induction s as [|c s IH]; simpl.
  - split; [constructor | done].
  - rewrite andb_true_iff, IH, is_word_spec. split.
    + intros [? ?]. by constructor.
    + by inversion 1.
Qed.

Lemma match_listname_regex s :
  re.match_ [re.Bos; re.Many1 re.Word; re.Eos] s = true ↔ spec_valid_listname s.
Proof.
  unfold re.match_, spec_valid_listname. destruct s as [|c s].
  - simpl. split; [done | intros [? _]; done].
  - cbn [re.matches_from andb re.atom_matches].
    rewrite andb_true_iff, star_word_eos, is_word_spec. simpl. split.
    + intros [? ?]. split; [done | by constructor].
    + intros [_ H]. by inversion H.
Qed.

(** C8. For every string [name], [_validate_listname name] is true iff
    [name] consists of one or more word characters (letters, digits,
    underscore) and nothing else; [" "], ["a b"], the empty string and
    ["a!"] are rejected and ["a_1"] is accepted.  Letters and digits are
    those of [\w] on a [str]: the name [caf] followed by the letter 233
    (e with acute accent) and the superscript two (178) are accepted, the
    multiplication sign (215) and [caf] followed by the two code points 195,
    169 (a letter and the copyright sign) are rejected. *)
Theorem validate_listname_word_characters :
  (∀ name, _validate_listname name = Ok true ↔ spec_valid_listname name) ∧
  (∀ name, _validate_listname name = Ok false ↔ ¬ spec_valid_listname name) ∧
  _validate_listname " " = Ok false ∧
  _validate_listname "a b" = Ok false ∧
  _validate_listname "" = Ok false ∧
  _validate_listname "a!" = Ok false ∧
  _validate_listname "a_1" = Ok true ∧
  _validate_listname ("caf" +:+ String "233" "") = Ok true ∧
  _validate_listname (String "178" "") = Ok true ∧
  _validate_listname (String "215" "") = Ok false ∧
  _validate_listname ("caf" +:+ String "195" (String "169" "")) = Ok false.
Proof.
  assert (Hv : ∀ name, _validate_listname name =
      Ok (re.match_ [re.Bos; re.Many1 re.Word; re.Eos] name)).
  { intros name. unfold _validate_listname. rewrite compile_listname_regex.
    by destruct (re.match_ _ name). }
  split_and!; try reflexivity.
  - intros name. rewrite Hv, <- match_listname_regex. split; congruence.
  - intros name. rewrite Hv, <- match_listname_regex.
    destruct (re.match_ _ name); split; congruence.
Qed.

Lemma one_of_decorations d : re.one_of decorations d = true ↔ decoration d.
Proof.
  unfold decoration, decorations. simpl.
  rewrite !orb_true_iff, !Ascii.eqb_eq. intuition discriminate.
Qed.

(** A character of an escaped text reads as that character, whether
    [re.escape] put a backslash before it or not. *)
Lemma lex_escaped_char c r :
  re.lex re.Top
    (if re.one_of re.special_chars c then String "\" (String c r)
     else String c r) =
  cons (re.TAtom (re.Lit c)) <$> re.lex re.Top r.
Proof. destruct c as [[] [] [] [] [] [] [] []]; reflexivity. Qed.

Lemma lex_escape s rest :
  re.lex re.Top (re.escape s +:+ rest) =
  (λ ts, ((λ c, re.TAtom (re.Lit c)) <$> String.list_ascii_of_string s) ++ ts)
    <$> re.lex re.Top rest.
Proof.
  induction s as [|c s IH].
  - cbn [re.escape String.list_ascii_of_string fmap list_fmap app].
    rewrite append_empty_l. by destruct (re.lex re.Top rest).
  - pose proof (lex_escaped_char c (re.escape s +:+ rest)) as Hc.
    cbn [re.escape]. destruct (re.one_of re.special_chars c);
      rewrite !append_cons, Hc, IH; by destruct (re.lex re.Top rest).
Qed.

Lemma assemble_literal s a :
  re.assemble (((λ c, re.TAtom (re.Lit c)) <$> String.list_ascii_of_string s)
               ++ [re.TAtom a]) =
  Some (literal s ++ [re.One a]).
Proof.
  unfold literal. induction s as [|c s IH]; [done|].
  cbn [String.list_ascii_of_string fmap list_fmap app re.assemble] in *.
  rewrite IH. by destruct s.
Qed.

(** The pattern of [_nick_match] always compiles, to the literal characters
    of the nick followed by one decoration character. *)
Lemma compile_nick_pattern nick1 :
  re.compile (re.escape nick1 +:+ "[-_|]") =
  Some (literal nick1 ++ [re.One (re.OneOf decorations)]).
Proof.
  unfold re.compile. rewrite lex_escape.
  change (re.lex re.Top "[-_|]") with (Some [re.TAtom (re.OneOf decorations)]).
  simpl. apply assemble_literal.
Qed.

Lemma matches_literal s cs b cand :
  re.matches_from (literal s ++ [re.One (re.OneOf cs)]) b cand = true ↔
  ∃ d rest, re.one_of cs d = true ∧ cand = s +:+ String d rest.
Proof.
  unfold literal. revert b cand. induction s as [|c s IH]; intros b cand.
  - cbn. setoid_rewrite append_empty_l. destruct cand as [|d rest].
    + split; [done | by intros (? & ? & _ & ?)].
    + rewrite andb_true_r. split.
      * intros ?. by exists d, rest.
      * by intros (? & ? & ? & [= -> ->]).
  - cbn [String.list_ascii_of_string fmap list_fmap app re.matches_from
         re.atom_matches].
    setoid_rewrite append_cons. destruct cand as [|c' cand].
    + split; [done | by intros (? & ? & _ & ?)].
    + rewrite andb_true_iff, Ascii.eqb_eq, IH. split.
      * intros [-> (d & rest & ? & ->)]. by exists d, rest.
      * intros (d & rest & ? & [= -> ->]). split; [done|]. by exists d, rest.
Qed.

Lemma nick_match_eval nick1 nick2 :
  _nick_match nick1 nick2 =
  Ok (String.eqb nick1 nick2 ||
      re.match_ (literal nick1 ++ [re.One (re.OneOf decorations)]) nick2).
Proof.
  unfold _nick_match, re.match_str. rewrite compile_nick_pattern.
  destruct (String.eqb nick1 nick2); [done|].
  by destruct (re.match_ _ nick2).
Qed.

Lemma nick_match_true nick1 nick2 :
  _nick_match nick1 nick2 = Ok true ↔ spec_matches nick1 nick2.
Proof.
  rewrite nick_match_eval. unfold spec_matches, re.match_.
  split.
  - intros [= H]. apply orb_true_iff in H as [H|H].
    + left. symmetry. by apply String.eqb_eq.
    + right. apply matches_literal in H as (d & rest & Hd & ->).
      exists d, rest. by rewrite <- one_of_decorations.
  - intros H. f_equal. apply orb_true_iff. destruct H as [->|(d & rest & Hd & ->)].
    + left. apply String.eqb_refl.
    + right. apply matches_literal. exists d, rest.
      by rewrite one_of_decorations.
Qed.

(** C3. [_nick_match stored candidate] is true iff [candidate] equals
    [stored] or begins with [stored] followed immediately by one of [-],
    [_], [|] (anything may follow), and is false otherwise; the five cases
    of the specification. *)
Theorem nick_match_iff_decorated :
  (∀ stored candidate,
     _nick_match stored candidate = Ok true ↔ spec_matches stored candidate) ∧
  (∀ stored candidate,
     _nick_match stored candidate = Ok false ↔
     ¬ spec_matches stored candidate) ∧
  _nick_match "alice" "alice" = Ok true ∧
  _nick_match "alice" "alice_" = Ok true ∧
  _nick_match "alice" "alice|away" = Ok true ∧
  _nick_match "alice" "alice-2" = Ok true ∧
  _nick_match "alice" "alicex" = Ok false ∧
  _nick_match "alice" "bob" = Ok false.
Proof.
  split_and!; try reflexivity.
  - apply nick_match_true.
  - intros stored candidate. rewrite <- nick_match_true, nick_match_eval.
    destruct (_ || _); split; congruence.
Qed.

(** C10. The stored nick is taken literally, whatever characters it holds:
    the compiled pattern is the nick's own characters followed by one
    decoration character, so a match means equality or that literal prefix
    followed by a decoration; ["a.c"] does not match ["abc_"] (which the
    unescaped text ["a.c[-_|]"] would) and matches ["a.c-2"]. *)
Theorem nick_match_literal_stored :
  (∀ stored,
     re.compile (re.escape stored +:+ "[-_|]") =
     Some (literal stored ++ [re.One (re.OneOf decorations)])) ∧
  (∀ stored candidate,
     _nick_match stored candidate = Ok true →
     candidate = stored ∨
     ∃ d rest, decoration d ∧ candidate = stored +:+ String d rest) ∧
  _nick_match "a.c" "abc_" = Ok false ∧
  re.match_str "a.c[-_|]" "abc_" = Ok true ∧
  _nick_match "a.c" "a.c-2" = Ok true ∧
  _nick_match "a[b" "a[b_" = Ok true ∧
  _nick_match "a*" "aa_" = Ok false ∧
  _nick_match "a*" "a*|x" = Ok true.
Proof.
  split_and!; try reflexivity.
  - apply compile_nick_pattern.
  - intros stored candidate H. by apply nick_match_true in H.
Qed.

(** ** Resolution *)

Lemma nick_match_total nick1 nick2 : ∃ b, _nick_match nick1 nick2 = Ok b.
Proof. rewrite nick_match_eval. eauto. Qed.

(** The inner loop of [resolve]: the users that [nick] matches, other than
    [nick] itself, are added. *)
Lemma resolve_inner nick (users : list string) (ping_set : gset string) :
  ∃ ping_set',
    for_acc users ping_set (λ nick2 ping_set,
      if String.eqb nick nick2 then Ok ping_set
      else
        m ← _nick_match nick nick2;
        if (m : bool) then Ok ({[nick2]} ∪ ping_set) else Ok ping_set)
    = Ok ping_set' ∧
    ∀ x, x ∈ ping_set' ↔
         x ∈ ping_set ∨ (x ∈ users ∧ x ≠ nick ∧ _nick_match nick x = Ok true).
Proof.
  revert ping_set. induction users as [|nick2 users IH]; intros ping_set.
  - exists ping_set. split; [done|]. intros x. rewrite elem_of_nil. tauto.
  - cbn [for_acc]. destruct (String.eqb_spec nick nick2) as [->|Hne];
      cbn [mbind result_bind].
    + destruct (IH ping_set) as (ps & -> & Hps). exists ps. split; [done|].
      intros x. rewrite Hps, elem_of_cons. tauto.
    + destruct (nick_match_total nick nick2) as [[] Hm]; rewrite Hm;
        cbn [mbind result_bind].
      * destruct (IH ({[nick2]} ∪ ping_set)) as (ps & -> & Hps).
        exists ps. split; [done|]. intros x. rewrite Hps.
        rewrite elem_of_union, elem_of_singleton, elem_of_cons.
        intuition (subst; auto; congruence).
      * destruct (IH ping_set) as (ps & -> & Hps).
        exists ps. split; [done|]. intros x. rewrite Hps.
        rewrite elem_of_cons.
        intuition (subst; auto; congruence).
Qed.

Lemma resolve_outer (nicks : list string) (presence ping_set : gset string) :
  ∃ ping_set',
    for_acc nicks ping_set (λ nick ping_set,
      us ← Ok presence;
      for_acc (elements us) ping_set (λ nick2 ping_set,
        if String.eqb nick nick2 then Ok ping_set
        else
          m ← _nick_match nick nick2;
          if (m : bool) then Ok ({[nick2]} ∪ ping_set) else Ok ping_set))
    = Ok ping_set' ∧
    ∀ x, x ∈ ping_set' ↔
         x ∈ ping_set ∨
         (x ∈ presence ∧ ∃ s, s ∈ nicks ∧ x ≠ s ∧ _nick_match s x = Ok true).
Proof.
  revert ping_set. induction nicks as [|nick nicks IH]; intros ping_set.
  - exists ping_set. split; [done|]. intros x. split; [tauto|].
    intros [?|[_ (s & Hs & _)]]; [done|]. by apply elem_of_nil in Hs.
  - cbn [for_acc mbind result_bind] in IH |- *.
    destruct (resolve_inner nick (elements presence) ping_set)
      as (ps1 & -> & H1).
    cbn [mbind result_bind].
    destruct (IH ps1) as (ps & -> & Hps). exists ps. split; [done|].
    intros x. rewrite Hps, H1, elem_of_elements. split.
    + intros [[?|(? & ? & ?)]|(? & s & ? & ? & ?)]; [by left|right..].
      * split; [done|]. exists nick. split_and!; [by left|done..].
      * split; [done|]. exists s. split_and!; [by right|done..].
    + intros [?|(? & s & [->|?]%elem_of_cons & ? & ?)].
      * by left; left.
      * left; right. done.
      * right. split; [done|]. by exists s.
Qed.

Lemma sorted_spec (s : gset string) :
  StronglySorted String.le (sorted s) ∧ NoDup (sorted s) ∧
  ∀ x, x ∈ sorted s ↔ x ∈ s.
Proof.
  unfold sorted. split_and!.
  - apply StronglySorted_merge_sort; apply _.
  - rewrite merge_sort_Permutation. apply NoDup_elements.
  - intros x. rewrite merge_sort_Permutation. apply elem_of_elements.
Qed.

(** Resolution never raises when the presence set is at hand, and returns
    the sorted sequence of the resolved set. *)
Lemma resolve_spec (S P : gset string) :
  ∃ l, resolve (Ok P) S = Ok l ∧
       StronglySorted String.le l ∧ NoDup l ∧ ∀ x, x ∈ l ↔ resolved S P x.
Proof.
  unfold resolve.
  destruct (resolve_outer (elements S) P S) as (ps & -> & Hps).
  exists (sorted ps). split; [done|].
  destruct (sorted_spec ps) as (? & ? & Hin). split_and!; [done..|].
  intros x. rewrite Hin, Hps. unfold resolved.
  by setoid_rewrite elem_of_elements.
Qed.

(** C2. For every stored set [S] (non-empty or not) and every presence set
    [P], resolution returns the sorted, duplicate-free sequence whose members
    are exactly [S] and every [p] of [P] that differs from some [s] of [S]
    with [_nick_match s p]; the two cases of the specification. *)
Theorem resolve_sorted_union :
  (∀ S P : gset string, ∃ l,
     resolve (Ok P) S = Ok l ∧
     StronglySorted String.le l ∧ NoDup l ∧
     ∀ x, x ∈ l ↔ resolved S P x) ∧
  resolve (Ok {[ "alice_"; "bob" ]}) {[ "alice" ]} = Ok ["alice"; "alice_"] ∧
  resolve (Ok ∅) {[ "alice" ]} = Ok ["alice"].
Proof.
  split_and!; [apply resolve_spec|by vm_compute..].
Qed.

(** ** What the commands preserve *)

Global Instance same_keys_preorder : PreOrder same_keys.
Proof.
  split; [done|]. unfold same_keys. intros w1 w2 w3 H12 H23. congruence.
Qed.

Global Instance sends_only_to_preorder dest : PreOrder (sends_only_to dest).
Proof.
  split.
  - intros w. exists []. by rewrite app_nil_r.
  - intros w1 w2 w3 (n1 & H1 & F1) (n2 & H2 & F2). exists (n1 ++ n2).
    split; [by rewrite H2, H1, app_assoc | by apply Forall_app].
Qed.

Section preserves.
Context (R : relation world) `{!PreOrder R}.

Lemma preserves_ret {A} (a : A) : preserves R (mret a).
Proof. intros w. reflexivity. Qed.

Lemma preserves_bind {A B} (m : M A) (k : A → M B) :
  preserves R m → (∀ a, preserves R (k a)) → preserves R (m ≫= k).
Proof.
  intros Hm Hk w. unfold mbind, M_bind. specialize (Hm w).
  destruct (m w) as [[a|e] w1]; [|done].
  etrans; [exact Hm | apply Hk].
Qed.

Lemma preserves_raise {A} e : preserves R (raise e : M A).
Proof. intros w. reflexivity. Qed.

Lemma preserves_lift {A} (r : result A) : preserves R (lift r).
Proof. intros w. reflexivity. Qed.

Lemma preserves_catch {A} (m : M A) :
  preserves R m → preserves R (catch_KeyError m).
Proof.
  intros Hm w. unfold catch_KeyError. specialize (Hm w).
  by destruct (m w) as [[a|[]] w1].
Qed.

Lemma preserves_read {A} name (v : local A) : preserves R (read name v).
Proof. destruct v; [apply preserves_raise | apply preserves_ret]. Qed.

Lemma preserves_args_getitem args key : preserves R (args_getitem args key).
Proof.
  unfold args_getitem.
  destruct (args !! key); [apply preserves_ret | apply preserves_raise].
Qed.

Lemma preserves_db_getitem key : preserves R (db_getitem key).
Proof.
  intros w. unfold db_getitem. destruct (key ≫= _); reflexivity.
Qed.

Lemma preserves_db_contains key : preserves R (db_contains key).
Proof. intros w. reflexivity. Qed.

Lemma preserves_db_keys : preserves R db_keys.
Proof. intros w. reflexivity. Qed.

Lemma preserves_irc_channels : preserves R irc_channels.
Proof. intros w. reflexivity. Qed.

Lemma preserves_for_each {A} (l : list A) body :
  (∀ x, preserves R (body x)) → preserves R (for_each l body).
Proof.
  intros Hb. induction l as [|x l IH]; cbn [for_each].
  - apply preserves_ret.
  - apply preserves_bind; [apply Hb | by intros _].
Qed.

Lemma preserves_for_return {A} (l : list A) body :
  (∀ x, preserves R (body x)) → preserves R (for_return l body).
Proof.
  intros Hb. induction l as [|x l IH]; cbn [for_return].
  - apply preserves_ret.
  - apply preserves_bind; [apply Hb|]. intros []; [apply preserves_ret|done].
Qed.
End preserves.

Lemma same_keys_privmsg target text : preserves same_keys (privmsg target text).
Proof. done. Qed.

Lemma same_keys_irc_error text : preserves same_keys (irc_error text).
Proof. done. Qed.

Lemma same_keys_db_update key nicks : preserves same_keys (db_update key nicks).
Proof.
  intros w. unfold db_update, same_keys. destruct key as [k|]; [|done].
  destruct (db w !! k) as [s|] eqn:Hk; [|done]. cbn.
  rewrite dom_insert_L. apply (elem_of_dom_2 (D := gset string)) in Hk.
  apply leibniz_equiv. rewrite subseteq_union_1; [done|].
  by apply singleton_subseteq_l.
Qed.

Lemma same_keys_db_difference_update key nicks :
  preserves same_keys (db_difference_update key nicks).
Proof.
  intros w. unfold db_difference_update, same_keys.
  destruct key as [k|]; [|done].
  destruct (db w !! k) as [s|] eqn:Hk; [|done]. destruct nicks; [|done]. cbn.
  rewrite dom_insert_L. apply (elem_of_dom_2 (D := gset string)) in Hk.
  apply leibniz_equiv. rewrite subseteq_union_1; [done|].
  by apply singleton_subseteq_l.
Qed.

Lemma sends_only_to_privmsg dest text :
  preserves (sends_only_to dest) (privmsg dest text).
Proof.
  intros w. exists [Privmsg dest text]. split; [done|].
  constructor; [by eexists | constructor].
Qed.

(** One step through the text of a command. *)
Ltac preorder_goal :=
  lazymatch goal with
  | |- PreOrder _ => apply _
  | |- _ => idtac
  end.

Ltac preserves_step :=
  first
    [ apply same_keys_privmsg
    | apply same_keys_irc_error
    | apply same_keys_db_update
    | apply same_keys_db_difference_update
    | apply sends_only_to_privmsg
    | apply preserves_ret
    | apply preserves_raise
    | apply preserves_lift
    | apply preserves_read
    | apply preserves_args_getitem
    | apply preserves_db_getitem
    | apply preserves_db_contains
    | apply preserves_db_keys
    | apply preserves_irc_channels
    | apply preserves_catch
    | apply preserves_for_each; [..|intros ?]
    | apply preserves_for_return; [..|intros ?]
    | apply preserves_bind; [..|intros ?]
    | match goal with
      | |- preserves _ (match ?x with _ => _ end) => destruct x
      end ];
  preorder_goal.

Ltac preserves_steps := cbv zeta; repeat preserves_step.

Section commands_keep_keys.
Variable isNick : string → bool.
Variable wrap : string → list string.

Lemma add_from_same_keys nicks mask target args :
  preserves same_keys (add_from isNick nicks mask target args).
Proof. unfold add_from. preserves_steps. Qed.

Lemma remove_from_same_keys nicks mask target args :
  preserves same_keys (remove_from isNick nicks mask target args).
Proof. unfold remove_from. preserves_steps. Qed.

Lemma create_from_same_keys nicks mask target args :
  preserves same_keys (create_from isNick nicks mask target args).
Proof. unfold create_from. preserves_steps. Qed.

Lemma show_same_keys mask target args :
  preserves same_keys (show wrap mask target args).
Proof. unfold show. preserves_steps. Qed.

Lemma pinglists_same_keys mask target args :
  preserves same_keys (pinglists wrap mask target args).
Proof. unfold pinglists. preserves_steps. Qed.

Lemma doping_same_keys mask target args :
  preserves same_keys (doping wrap mask target args).
Proof. unfold doping. preserves_steps. Qed.
End commands_keep_keys.

(** ** Running the commands *)

Lemma run_bind {A B} (m : M A) (k : A → M B) w a w1 :
  m w = (Ok a, w1) → (m ≫= k) w = k a w1.
Proof. intros H. unfold mbind, M_bind. by rewrite H. Qed.

Lemma run_bind_raise {A B} (m : M A) (k : A → M B) w e w1 :
  m w = (Raise e, w1) → (m ≫= k) w = (Raise e, w1).
Proof. intros H. unfold mbind, M_bind. by rewrite H. Qed.

Lemma run_args_getitem args key v w :
  args !! key = Some v → args_getitem args key w = (Ok v, w).
Proof. intros H. unfold args_getitem. by rewrite H. Qed.

Lemma run_lookup_found name S w :
  db w !! name = Some S →
  catch_KeyError (db_getitem (Some name)) w = (Ok (Some S), w).
Proof. intros H. unfold catch_KeyError, db_getitem. cbn. by rewrite H. Qed.

Lemma run_lookup_missing key w :
  key ≫= (db w !!.) = None →
  catch_KeyError (db_getitem key) w = (Ok None, w).
Proof. intros H. unfold catch_KeyError, db_getitem. by rewrite H. Qed.

(** The loop that checks the nicks: with every nick legal it finishes
    without reporting; otherwise it reports one illegal nick and the
    function returns. *)
Lemma run_check_all_valid {A} (ok : A → bool) (report : A → M unit) l w :
  Forall (λ x, ok x = true) l →
  for_return l (λ x, if negb (ok x) then report x;; mret true else mret false) w
  = (Ok false, w).
Proof.
  induction 1 as [|x l Hx _ IH]; [done|].
  cbn [for_return]. rewrite Hx. cbn [negb].
  by rewrite (run_bind _ _ w false w).
Qed.

Lemma run_check_some_invalid {A} (ok : A → bool) (report : A → M unit) l w :
  (∀ x w, ∃ w', report x w = (Ok (), w')) →
  ¬ Forall (λ x, ok x = true) l →
  ∃ bad, bad ∈ l ∧ ok bad = false ∧
    for_return l (λ x, if negb (ok x) then report x;; mret true else mret false) w
    = (Ok true, (report bad w).2).
Proof.
  intros Hreport. induction l as [|x l IH]; intros Hl.
  - by destruct Hl.
  - cbn [for_return]. destruct (ok x) eqn:Hx; cbn [negb].
    + destruct IH as (bad & ? & ? & Hrun).
      { intros HF. apply Hl. by constructor. }
      exists bad. split_and!; [by right|done|].
      by rewrite (run_bind _ _ w false w).
    + exists x. split_and!; [by left|done|].
      destruct (Hreport x w) as [w' Hw']. rewrite Hw'.
      rewrite (run_bind _ _ w true w'); [done|].
      by rewrite (run_bind _ _ w () w').
Qed.

Lemma Forall_elements_list_to_set (P : string → Prop) (l : list string) :
  Forall P (elements (list_to_set l : gset string)) ↔ Forall P l.
Proof.
  rewrite !Forall_forall. setoid_rewrite elem_of_elements.
  by setoid_rewrite elem_of_list_to_set.
Qed.

Section running.
Variable isNick : string → bool.
Variable wrap : string → list string.

Lemma add_from_success mask target args w name S given :
  args !! "<listname>" = Some (Some name) →
  db w !! name = Some S →
  Forall (λ n, isNick n = true) given →
  add_from isNick (Bound (Some given)) mask target args w =
  (Ok (),
   World (<[name := S ∪ list_to_set given]> (db w)) (channels w)
     (sent w ++
      [Privmsg target (fmt2 (mask_nick mask) "Nick(s) successfully added.")])).
Proof.
  intros Hargs Hdb Hvalid. unfold add_from.
  erewrite run_bind; [|by apply run_args_getitem].
  erewrite run_bind; [|by apply run_lookup_found].
  cbv zeta. cbn [read]. erewrite run_bind; [|reflexivity]. cbv beta iota.
  erewrite run_bind.
  2:{ erewrite run_bind; [reflexivity|].
      apply (run_check_all_valid isNick).
      by apply Forall_elements_list_to_set. }
  cbv beta iota. erewrite run_bind.
  2:{ unfold db_update. rewrite Hdb. reflexivity. }
  reflexivity.
Qed.

(** With no nick given ([nicks] bound to [None]) the caller's own nick is
    the one added. *)
Lemma add_from_caller mask target args w name S :
  args !! "<listname>" = Some (Some name) →
  db w !! name = Some S →
  add_from isNick (Bound None) mask target args w =
  (Ok (),
   World (<[name := S ∪ {[mask_nick mask]}]> (db w)) (channels w)
     (sent w ++
      [Privmsg target (fmt2 (mask_nick mask) "Nick(s) successfully added.")])).
Proof.
  intros Hargs Hdb. unfold add_from.
  erewrite run_bind; [|by apply run_args_getitem].
  erewrite run_bind; [|by apply run_lookup_found].
  cbv zeta. cbn [read]. erewrite run_bind; [|reflexivity]. cbv beta iota.
  erewrite run_bind; [|reflexivity]. cbv beta iota.
  erewrite run_bind.
  2:{ unfold db_update. rewrite Hdb. reflexivity. }
  reflexivity.
Qed.

(** On a list that does not exist [add] answers so and changes nothing,
    whatever [nicks] is. *)
Lemma add_from_not_found nicks mask target args w listname :
  args !! "<listname>" = Some listname →
  listname ≫= (db w !!.) = None →
  add_from isNick nicks mask target args w =
  (Ok (),
   World (db w) (channels w)
     (sent w ++ [Privmsg target (fmt2 (mask_nick mask) "No such ping list.")])).
Proof.
  intros Hargs Hdb. unfold add_from.
  erewrite run_bind; [|by apply run_args_getitem].
  erewrite run_bind; [|by apply run_lookup_missing].
  reflexivity.
Qed.

(** With an illegal nick among those given [add] reports one of them and
    changes no list. *)
Lemma add_from_invalid mask target args w name S given :
  args !! "<listname>" = Some (Some name) →
  db w !! name = Some S →
  ¬ Forall (λ n, isNick n = true) given →
  ∃ bad, bad ∈ given ∧ isNick bad = false ∧
    add_from isNick (Bound (Some given)) mask target args w =
    (Ok (),
     World (db w) (channels w)
       (sent w ++
        [Privmsg target (fmt2 (mask_nick mask) ("Invalid nick: " +:+ bad))])).
Proof.
  intros Hargs Hdb Hinvalid. unfold add_from.
  rewrite <- Forall_elements_list_to_set in Hinvalid.
  destruct (run_check_some_invalid isNick
              (λ nick, privmsg target
                 (fmt2 (mask_nick mask) ("Invalid nick: " +:+ nick)))
              _ w (λ x w, ex_intro _ _ eq_refl) Hinvalid)
    as (bad & Hbad & Hno & Hrun).
  exists bad. split_and!; [|done|].
  { by apply elem_of_elements, elem_of_list_to_set in Hbad. }
  erewrite run_bind; [|by apply run_args_getitem].
  erewrite run_bind; [|by apply run_lookup_found].
  cbv zeta. cbn [read]. erewrite run_bind; [|reflexivity]. cbv beta iota.
  erewrite run_bind.
  2:{ erewrite run_bind; [reflexivity|]. exact Hrun. }
  reflexivity.
Qed.

(** X23. As the source has it, [add] on a list that exists stops at the
    first use of [nicks]: it raises [UnboundLocalError], nothing is added and
    nothing is answered. *)
Lemma add_unbound mask target args w name S :
  args !! "<listname>" = Some (Some name) →
  db w !! name = Some S →
  add isNick mask target args w = (Raise (UnboundLocalError "nicks"), w).
Proof.
  intros Hargs Hdb. unfold add, add_from.
  erewrite run_bind; [|by apply run_args_getitem].
  erewrite run_bind; [|by apply run_lookup_found].
  reflexivity.
Qed.

(** Past the lookups of its arguments, [doping] on an empty list answers
    that the list is empty, whatever the channels are. *)
Lemma doping_empty_list mask target args w name message :
  args !! "<listname>" = Some (Some name) →
  args !! "<message" = Some message →
  db w !! name = Some ∅ →
  doping wrap mask target args w =
  (Ok (),
   World (db w) (channels w)
     (sent w ++
      [Privmsg (default target (args_get args "<channel>"))
         (fmt2 (mask_nick mask) "Ping list is empty.")])).
Proof.
  intros Hargs Hmsg Hdb. unfold doping.
  erewrite run_bind; [|by apply run_args_getitem].
  cbv zeta. erewrite run_bind; [|by apply run_args_getitem].
  erewrite run_bind; [|by apply run_lookup_found].
  cbv beta iota. rewrite bool_decide_eq_true_2 by done.
  by destruct (args_get args "<channel>").
Qed.

(** X20. Without the key ["<message"] among its arguments [doping] raises
    [KeyError] on that key before it looks at the store or sends anything. *)
Lemma doping_no_message_key mask target args w listname :
  args !! "<listname>" = Some listname →
  args !! "<message" = None →
  doping wrap mask target args w = (Raise (KeyError (Some "<message")), w).
Proof.
  intros Hargs Hmsg. unfold doping.
  erewrite run_bind; [|by apply run_args_getitem].
  cbv zeta. erewrite run_bind_raise; [done|].
  unfold args_getitem. by rewrite Hmsg.
Qed.

Lemma doping_no_such_list mask target args w listname message :
  args !! "<listname>" = Some listname →
  args !! "<message" = Some message →
  listname ≫= (db w !!.) = None →
  doping wrap mask target args w =
  (Ok (),
   World (db w) (channels w)
     (sent w ++
      [Privmsg (default target (args_get args "<channel>"))
         (fmt2 (mask_nick mask) "No such ping list.")])).
Proof.
  intros Hargs Hmsg Hdb. unfold doping.
  erewrite run_bind; [|by apply run_args_getitem].
  cbv zeta. erewrite run_bind; [|by apply run_args_getitem].
  erewrite run_bind; [|by apply run_lookup_missing].
  cbv beta iota. by destruct (args_get args "<channel>").
Qed.

Lemma doping_sends_only_to mask target args dest :
  args !! "<channel>" = Some (Some dest) →
  preserves (sends_only_to dest) (doping wrap mask target args).
Proof.
  intros Hchannel. unfold doping, args_get. rewrite Hchannel.
  preserves_steps.
Qed.

End running.

(** ** The claims about the commands *)

(** C7. [add], [remove], [show], [pinglists] and [doping] leave the set of
    list names of the store as it was, however they end; so do the bodies of
    [add] and [remove] entered with any value of [nicks]. *)
Theorem commands_keep_list_names isNick wrap nicks mask target args w :
  dom (db (add isNick mask target args w).2) = dom (db w) ∧
  dom (db (remove isNick mask target args w).2) = dom (db w) ∧
  dom (db (show wrap mask target args w).2) = dom (db w) ∧
  dom (db (pinglists wrap mask target args w).2) = dom (db w) ∧
  dom (db (doping wrap mask target args w).2) = dom (db w) ∧
  dom (db (add_from isNick nicks mask target args w).2) = dom (db w) ∧
  dom (db (remove_from isNick nicks mask target args w).2) = dom (db w).
Proof.
  split_and!.
  - apply (add_from_same_keys isNick Unbound).
  - apply (remove_from_same_keys isNick Unbound).
  - apply show_same_keys.
  - apply pinglists_same_keys.
  - apply doping_same_keys.
  - apply add_from_same_keys.
  - apply remove_from_same_keys.
Qed.

(** C9. With a destination override [dest], everything [doping] sends goes
    to [dest], the answers "No such ping list." and "Ping list is empty."
    included. *)
Theorem doping_replies_to_override wrap mask target args dest w :
  args !! "<channel>" = Some (Some dest) →
  (∃ new, sent (doping wrap mask target args w).2 = sent w ++ new ∧
          Forall (λ e, ∃ text, e = Privmsg dest text) new) ∧
  (∀ listname message,
     args !! "<listname>" = Some listname →
     args !! "<message" = Some message →
     listname ≫= (db w !!.) = None →
     sent (doping wrap mask target args w).2 =
     sent w ++ [Privmsg dest (fmt2 (mask_nick mask) "No such ping list.")]) ∧
  (∀ name message,
     args !! "<listname>" = Some (Some name) →
     args !! "<message" = Some message →
     db w !! name = Some ∅ →
     sent (doping wrap mask target args w).2 =
     sent w ++ [Privmsg dest (fmt2 (mask_nick mask) "Ping list is empty.")]).
Proof.
  intros Hchannel. split_and!.
  - by apply doping_sends_only_to.
  - intros listname message ? ? ?.
    erewrite doping_no_such_list by done. unfold args_get. by rewrite Hchannel.
  - intros name message ? ? ?.
    erewrite doping_empty_list by done. unfold args_get. by rewrite Hchannel.
Qed.

Lemma doping_replies_to_override_witness :
  let args : gmap string pyval :=
    {[ "<listname>" := Some "team"; "<channel>" := Some "#ops";
       "<message" := Some "hi" ]} in
  let w := World {[ "team" := ∅ ]} ∅ [] in
  args !! "<channel>" = Some (Some "#ops") ∧
  sent (doping (λ s, [s]) {| mask_nick := "carol" |} "#chan" args w).2 =
  sent w ++ [Privmsg "#ops" (fmt2 "carol" "Ping list is empty.")].
Proof.
  intros args w. split; [reflexivity|].
  apply (doping_replies_to_override (λ s, [s]) {| mask_nick := "carol" |}
           "#chan" args "#ops" w eq_refl) with (name := "team") (message := Some "hi");
    reflexivity.
Defined.


(** C1, on the code.  [create] with a valid name that no list has stops at
    its first use of [nicks] and the store stays empty.  Its body entered
    with [nicks] bound does not create either: on an absent name the
    subscript of the store raises [KeyError]; on a name that is present it
    answers "Pinglist foo added." and takes the nicks given out of the list
    that was there. *)
Theorem create_does_not_create :
  let isNick := λ _ : string, true in
  let mask := {| mask_nick := "carol" |} in
  let args : gmap string pyval := {[ "<listname>" := Some "foo" ]} in
  let empty := World ∅ ∅ [] in
  let full := World {[ "foo" := {[ "alice"; "bob" ]} ]} ∅ [] in
  _validate_listname "foo" = Ok true ∧
  create isNick mask "#chan" args empty
    = (Raise (UnboundLocalError "nicks"), empty) ∧
  create_from isNick (Bound (Some ["alice"])) mask "#chan" args empty
    = (Raise (KeyError (Some "foo")), empty) ∧
  create_from isNick (Bound None) mask "#chan" args empty
    = (Raise (KeyError (Some "foo")), empty) ∧
  create_from isNick (Bound (Some ["alice"])) mask "#chan" args full
    = (Ok (),
       World {[ "foo" := {[ "bob" ]} ]} ∅
         [Privmsg "#chan" "carol: Pinglist foo added."]).
Proof. intros isNick mask args empty full. split_and!; by vm_compute. Qed.

(** C5, on the code.  On a list that exists, [add] stops at its first use
    of [nicks]: no nick is added and no answer is sent. *)
Theorem add_raises_before_adding :
  let isNick := λ _ : string, true in
  let mask := {| mask_nick := "carol" |} in
  let args : gmap string pyval := {[ "<listname>" := Some "team" ]} in
  let w := World {[ "team" := {[ "alice" ]} ]} ∅ [] in
  add isNick mask "#chan" args w = (Raise (UnboundLocalError "nicks"), w).
Proof. intros isNick mask args w. by vm_compute. Qed.

(** C6, on the code.  With the arguments its usage line gives it
    ([<listname>], [<channel>], [<message>]), [doping] on an existing empty
    list raises [KeyError] on the key ["<message"] and sends nothing. *)
Theorem doping_raises_before_empty_check :
  let mask := {| mask_nick := "carol" |} in
  let args : gmap string pyval :=
    {[ "<listname>" := Some "team"; "<channel>" := None;
       "<message>" := Some "hi" ]} in
  let w := World {[ "team" := ∅ ]} {[ "#chan" := {[ "alice_" ]} ]} [] in
  doping (λ s, [s]) mask "#chan" args w
    = (Raise (KeyError (Some "<message")), w).
Proof. intros mask args w. by vm_compute. Qed.

(** * More of the module *)

(** ** Strings *)

Lemma append_assoc (a b c : string) : (a +:+ b) +:+ c = a +:+ (b +:+ c).
Proof.
  induction a as [|x a IH]; [done|]. by rewrite !append_cons, IH.
Qed.

Lemma length_append (a b : string) :
  String.length (a +:+ b) = String.length a + String.length b.
Proof.
  induction a as [|x a IH]; [done|]. rewrite append_cons. cbn. by rewrite IH.
Qed.

Lemma list_ascii_of_append (a b : string) :
  String.list_ascii_of_string (a +:+ b) =
  String.list_ascii_of_string a ++ String.list_ascii_of_string b.
Proof.
  induction a as [|x a IH]; [done|]. rewrite append_cons. cbn. by rewrite IH.
Qed.

(** ** [_nick_match] as an order *)

(** X1. [_nick_match] is a partial order on nicks: every nick matches
    itself, two nicks that match each other are equal, and a variant of a
    variant is a variant. *)
Theorem nick_match_partial_order :
  (∀ a, _nick_match a a = Ok true) ∧
  (∀ a b, _nick_match a b = Ok true → _nick_match b a = Ok true → a = b) ∧
  (∀ a b c,
     _nick_match a b = Ok true → _nick_match b c = Ok true →
     _nick_match a c = Ok true).
Proof.
  split_and!.
  - intros a. apply nick_match_true. by left.
  - intros a b Hab Hba.
    apply nick_match_true in Hab as [->|(d & r & _ & Hb)]; [done|].
    apply nick_match_true in Hba as [->|(d' & r' & _ & Ha)]; [done|].
    apply (f_equal String.length) in Ha, Hb.
    rewrite length_append in Ha, Hb. cbn in Ha, Hb. lia.
  - intros a b c Hab Hbc. apply nick_match_true.
    apply nick_match_true in Hab as [->|(d & r & Hd & ->)];
      [by apply nick_match_true|].
    apply nick_match_true in Hbc as [->|(d' & r' & _ & ->)].
    + right. by exists d, r.
    + right. exists d, (r +:+ String d' r'). split; [done|].
      by rewrite append_assoc, append_cons.
Qed.

Lemma nick_match_partial_order_witness :
  _nick_match "bob" "bob_" = Ok true ∧ _nick_match "bob_" "bob_|away" = Ok true ∧
  _nick_match "bob" "bob_|away" = Ok true.
Proof.
  assert (H1 : _nick_match "bob" "bob_" = Ok true) by reflexivity.
  assert (H2 : _nick_match "bob_" "bob_|away" = Ok true) by reflexivity.
  split_and!; [exact H1|exact H2|].
  exact (proj2 (proj2 nick_match_partial_order) "bob" "bob_" "bob_|away" H1 H2).
Defined.

(** ** [_validate_listname] *)

Lemma validate_listname_eval name :
  _validate_listname name =
  Ok (re.match_ [re.Bos; re.Many1 re.Word; re.Eos] name).
Proof.
  unfold _validate_listname. rewrite compile_listname_regex.
  by destruct (re.match_ _ name).
Qed.

Lemma validate_listname_true name :
  _validate_listname name = Ok true ↔ spec_valid_listname name.
Proof.
  rewrite validate_listname_eval, <- match_listname_regex. split; congruence.
Qed.

Lemma validate_listname_false name :
  _validate_listname name = Ok false ↔ ¬ spec_valid_listname name.
Proof.
  rewrite validate_listname_eval, <- match_listname_regex.
  destruct (re.match_ _ name); split; congruence.
Qed.

(** X2. A name followed by a newline is never a valid list name ([\Z]
    matches at the very end only), and neither is a name with a space in
    it; two valid names put together make a valid name. *)
Theorem validate_listname_ends_and_joins :
  (∀ name, _validate_listname (name +:+ String "010" "") = Ok false) ∧
  (∀ a b, _validate_listname (a +:+ String " " b) = Ok false) ∧
  (∀ a b,
     _validate_listname a = Ok true → _validate_listname b = Ok true →
     _validate_listname (a +:+ b) = Ok true).
Proof.
  pose proof validate_listname_true as Ht.
  pose proof validate_listname_false as Hf.
  assert (Hbad : ∀ a c b, ¬ word_character c →
            ¬ spec_valid_listname (a +:+ String c b)).
  { intros a c b Hc [_ Hall]. rewrite list_ascii_of_append in Hall.
    apply Forall_app in Hall as [_ Hall]. cbn in Hall. by inversion Hall. }
  split_and!.
  - intros name. apply Hf, Hbad. rewrite <- is_word_spec. by vm_compute.
  - intros a b. apply Hf, Hbad. rewrite <- is_word_spec. by vm_compute.
  - intros a b [Ha Fa]%Ht [Hb Fb]%Ht. apply Ht. split.
    + destruct a; [done|]. by rewrite append_cons.
    + rewrite list_ascii_of_append. by apply Forall_app.
Qed.

Lemma validate_listname_ends_and_joins_witness :
  _validate_listname "ops" = Ok true ∧ _validate_listname "_2" = Ok true ∧
  _validate_listname ("ops" +:+ "_2") = Ok true.
Proof.
  assert (H1 : _validate_listname "ops" = Ok true) by reflexivity.
  assert (H2 : _validate_listname "_2" = Ok true) by reflexivity.
  split_and!; [exact H1|exact H2|].
  exact (proj2 (proj2 validate_listname_ends_and_joins) "ops" "_2" H1 H2).
Defined.

(** ** Resolution at its edges *)

Lemma resolve_lookup_edges :
  (∀ users, resolve users ∅ = Ok []) ∧
  (∀ e (pinglist : gset string), pinglist ≠ ∅ →
     resolve (Raise e) pinglist = Raise e).
Proof.
  split.
  - intros users. unfold resolve. by rewrite elements_empty.
  - intros e pinglist Hne. unfold resolve.
    destruct (elements pinglist) as [|nick l] eqn:Hl; [|done].
    by apply elements_empty_inv, leibniz_equiv in Hl.
Qed.

(** X3. The channel is looked up once per nick of the list: with an empty
    list [resolve] returns the empty sequence even when the lookup would
    raise, and with a nick in the list a lookup that raises makes [resolve]
    raise the same exception. *)
Theorem resolve_lookup_per_nick :
  (∀ users, resolve users ∅ = Ok []) ∧
  (∀ e (pinglist : gset string), pinglist ≠ ∅ →
     resolve (Raise e) pinglist = Raise e).
Proof. exact resolve_lookup_edges. Qed.

Lemma resolve_lookup_per_nick_witness :
  ({[ "alice" ]} : gset string) ≠ ∅ ∧
  resolve (channel_users ∅ "#nowhere") {[ "alice" ]}
    = Raise (KeyError (Some "#nowhere")).
Proof.
  assert (H : ({[ "alice" ]} : gset string) ≠ ∅) by (by vm_compute).
  split; [exact H|].
  exact (proj2 resolve_lookup_per_nick (KeyError (Some "#nowhere"))
           {[ "alice" ]} H).
Defined.

Lemma for_acc_unchanged {A S} (body : A → S → result S) l acc :
  (∀ x acc, body x acc = Ok acc) → for_acc l acc body = Ok acc.
Proof.
  intros Hbody. induction l as [|x l IH]; [done|].
  cbn [for_acc]. rewrite Hbody. apply IH.
Qed.

(** X4. Every nick of the list is in what [resolve] returns, whoever is
    present; everything it returns is a nick of the list or a present nick;
    and with nobody present it returns the list itself, sorted. *)
Theorem resolve_between_list_and_presence (S P : gset string) :
  ∃ l, resolve (Ok P) S = Ok l ∧
       (∀ x, x ∈ S → x ∈ l) ∧
       (∀ x, x ∈ l → x ∈ S ∨ x ∈ P) ∧
       length l ≤ size S + size P ∧
       (P = ∅ → l = sorted S).
Proof.
  destruct (resolve_spec S P) as (l & Hl & _ & Hnodup & Hin).
  exists l. split_and!; [done|..].
  - intros x Hx. apply Hin. by left.
  - intros x [?|[? _]]%Hin; auto.
  - assert (Hsub : l ⊆ elements S ++ elements P).
    { intros x [?|[? _]]%Hin; apply elem_of_app;
        [left|right]; by apply elem_of_elements. }
    apply NoDup_submseteq, submseteq_length in Hsub; [|done].
    by rewrite length_app in Hsub.
  - intros ->. unfold resolve in Hl.
    rewrite (for_acc_unchanged _ (elements S) S) in Hl;
      [cbn [mbind result_bind] in Hl; congruence|].
    intros nick acc. cbn [mbind result_bind]. by rewrite elements_empty.
Qed.

(** ** What the commands leave alone *)

Global Instance same_store_preorder : PreOrder same_store.
Proof.
  split; [done|]. unfold same_store. intros w1 w2 w3 [? ?] [? ?].
  split; congruence.
Qed.

Lemma same_store_privmsg target text : preserves same_store (privmsg target text).
Proof. done. Qed.

Lemma sends_only_to_db_update dest key nicks :
  preserves (sends_only_to dest) (db_update key nicks).
Proof.
  intros w. exists []. rewrite app_nil_r. split; [|constructor].
  unfold db_update. destruct key as [k|]; [|done]. by destruct (db w !! k).
Qed.

Lemma sends_only_to_db_difference_update dest key nicks :
  preserves (sends_only_to dest) (db_difference_update key nicks).
Proof.
  intros w. exists []. rewrite app_nil_r. split; [|constructor].
  unfold db_difference_update. destruct key as [k|]; [|done].
  destruct (db w !! k); [|done]. by destruct nicks.
Qed.

Lemma sends_only_to_db_delitem dest key :
  preserves (sends_only_to dest) (db_delitem key).
Proof.
  intros w. exists []. rewrite app_nil_r. split; [|constructor].
  unfold db_delitem. destruct key as [k|]; [|done]. by destruct (db w !! k).
Qed.

Ltac preserves_more :=
  cbv zeta;
  repeat first
    [ apply same_store_privmsg
    | apply sends_only_to_db_update
    | apply sends_only_to_db_difference_update
    | apply sends_only_to_db_delitem
    | preserves_step ].

(** X5. [show], [pinglists] and [doping] only read: whatever their arguments
    and however they end, the store and the channels are exactly what they
    were. *)
Theorem readers_leave_store wrap mask target args w :
  same_store w (show wrap mask target args w).2 ∧
  same_store w (pinglists wrap mask target args w).2 ∧
  same_store w (doping wrap mask target args w).2.
Proof.
  split_and!.
  - revert w. change (preserves same_store (show wrap mask target args)).
    unfold show. preserves_more.
  - revert w. change (preserves same_store (pinglists wrap mask target args)).
    unfold pinglists. preserves_more.
  - revert w. change (preserves same_store (doping wrap mask target args)).
    unfold doping. preserves_more.
Qed.

(** X6. [add], [remove], [delete], [show] and [pinglists] send nothing but
    messages to the target they were given, on every path and whatever
    [nicks] holds; so does [doping] when no channel is given. *)
Theorem commands_answer_to_target isNick wrap nicks mask target args w :
  sends_only_to target w (add_from isNick nicks mask target args w).2 ∧
  sends_only_to target w (remove_from isNick nicks mask target args w).2 ∧
  sends_only_to target w (delete mask target args w).2 ∧
  sends_only_to target w (show wrap mask target args w).2 ∧
  sends_only_to target w (pinglists wrap mask target args w).2 ∧
  (args_get args "<channel>" = None →
   sends_only_to target w (doping wrap mask target args w).2).
Proof.
  split_and!.
  - revert w.
    change (preserves (sends_only_to target)
              (add_from isNick nicks mask target args)).
    unfold add_from. preserves_more.
  - revert w.
    change (preserves (sends_only_to target)
              (remove_from isNick nicks mask target args)).
    unfold remove_from. preserves_more.
  - revert w.
    change (preserves (sends_only_to target) (delete mask target args)).
    unfold delete. preserves_more.
  - revert w.
    change (preserves (sends_only_to target) (show wrap mask target args)).
    unfold show. preserves_more.
  - revert w.
    change (preserves (sends_only_to target) (pinglists wrap mask target args)).
    unfold pinglists. preserves_more.
  - intros Hchannel. revert w.
    change (preserves (sends_only_to target) (doping wrap mask target args)).
    unfold doping. rewrite Hchannel. preserves_more.
Qed.

(** X7. Every command that takes a list name raises [KeyError] when its
    arguments have no ["<listname>"], before it reads or sends anything. *)
Theorem missing_listname_raises isNick wrap nicks mask target args w :
  args !! "<listname>" = None →
  add_from isNick nicks mask target args w
    = (Raise (KeyError (Some "<listname>")), w) ∧
  remove_from isNick nicks mask target args w
    = (Raise (KeyError (Some "<listname>")), w) ∧
  create_from isNick nicks mask target args w
    = (Raise (KeyError (Some "<listname>")), w) ∧
  delete mask target args w = (Raise (KeyError (Some "<listname>")), w) ∧
  show wrap mask target args w = (Raise (KeyError (Some "<listname>")), w) ∧
  doping wrap mask target args w = (Raise (KeyError (Some "<listname>")), w).
Proof.
  intros Hargs.
  assert (Hget : args_getitem args "<listname>" w
                 = (Raise (KeyError (Some "<listname>")), w)).
  { unfold args_getitem. by rewrite Hargs. }
  split_and!;
    [unfold add_from|unfold remove_from|unfold create_from|unfold delete
    |unfold show|unfold doping];
    by erewrite run_bind_raise.
Qed.

Lemma missing_listname_raises_witness :
  let args : gmap string pyval := {[ "<nick>" := Some "bob" ]} in
  let w := World {[ "team" := {[ "alice" ]} ]} ∅ [] in
  args !! "<listname>" = None ∧
  delete {| mask_nick := "carol" |} "#chan" args w
    = (Raise (KeyError (Some "<listname>")), w).
Proof.
  intros args w.
  assert (H : args !! "<listname>" = None) by reflexivity.
  split; [exact H|].
  exact (proj1 (proj2 (proj2 (proj2
    (missing_listname_raises (λ _, true) (λ s, [s]) Unbound
       {| mask_nick := "carol" |} "#chan" args w H))))).
Defined.

(** ** [delete], [show] and [pinglists] *)

Lemma run_for_each_privmsg target (lines : list string) w :
  for_each lines (λ line, privmsg target line) w =
  (Ok (), World (db w) (channels w) (sent w ++ (Privmsg target <$> lines))).
Proof.
  revert w. induction lines as [|line lines IH]; intros w.
  - cbn. rewrite app_nil_r. by destruct w.
  - cbn [for_each]. erewrite run_bind; [|reflexivity]. rewrite IH. cbn.
    by rewrite <- app_assoc.
Qed.

Lemma run_delete_found mask target args w name S :
  args !! "<listname>" = Some (Some name) →
  db w !! name = Some S →
  delete mask target args w =
  (Ok (),
   World (base.delete name (db w)) (channels w)
     (sent w ++
      [Privmsg target
         (fmt2 (mask_nick mask) ("Pinglist " +:+ name +:+ " deleted."))])).
Proof.
  intros Hargs Hdb. unfold delete.
  erewrite run_bind; [|by apply run_args_getitem].
  erewrite run_bind; [|reflexivity]. cbn [mbind option_bind].
  rewrite Hdb, bool_decide_eq_true_2 by eauto. cbn [negb].
  erewrite run_bind; [|unfold db_delitem; by rewrite Hdb]. reflexivity.
Qed.

(** X8. [delete] on a list that exists takes that list, and no other, out
    of the store and answers "Pinglist <name> deleted." *)
Theorem delete_removes_list mask target args w name S :
  args !! "<listname>" = Some (Some name) →
  db w !! name = Some S →
  ∃ w', delete mask target args w = (Ok (), w') ∧
        db w' !! name = None ∧
        (∀ other, other ≠ name → db w' !! other = db w !! other) ∧
        channels w' = channels w ∧
        sent w' = sent w ++
          [Privmsg target
             (fmt2 (mask_nick mask) ("Pinglist " +:+ name +:+ " deleted."))].
Proof.
  intros Hargs Hdb. eexists. split.
  - by eapply run_delete_found.
  - cbn. split_and!; [apply lookup_delete_eq| |done..].
    intros other Hne. by rewrite lookup_delete_ne.
Qed.

Lemma delete_removes_list_witness :
  let args : gmap string pyval := {[ "<listname>" := Some "team" ]} in
  let w := World {[ "team" := {[ "alice" ]}; "ops" := {[ "bob" ]} ]} ∅ [] in
  args !! "<listname>" = Some (Some "team") ∧
  db w !! "team" = Some {[ "alice" ]} ∧
  ∃ w', delete {| mask_nick := "carol" |} "#chan" args w = (Ok (), w') ∧
        db w' !! "team" = None.
Proof.
  intros args w.
  assert (H1 : args !! "<listname>" = Some (Some "team")) by reflexivity.
  assert (H2 : db w !! "team" = Some {[ "alice" ]}) by reflexivity.
  split_and!; [exact H1|exact H2|].
  destruct (delete_removes_list {| mask_nick := "carol" |} "#chan" args w
              "team" {[ "alice" ]} H1 H2) as (w' & Hrun & Hgone & _).
  exists w'. by split.
Defined.

(** X9. [delete] on a name no list has answers "No such ping list." and
    leaves the store as it was. *)
Theorem delete_missing_list mask target args w listname :
  args !! "<listname>" = Some listname →
  listname ≫= (db w !!.) = None →
  delete mask target args w =
  (Ok (),
   World (db w) (channels w)
     (sent w ++ [Privmsg target (fmt2 (mask_nick mask) "No such ping list.")])).
Proof.
  intros Hargs Hdb. unfold delete.
  erewrite run_bind; [|by apply run_args_getitem].
  erewrite run_bind; [|reflexivity]. rewrite Hdb.
  rewrite bool_decide_eq_false_2; [done|]. by intros [? ?].
Qed.

Lemma delete_missing_list_witness :
  let args : gmap string pyval := {[ "<listname>" := Some "ops" ]} in
  let w := World {[ "team" := {[ "alice" ]} ]} ∅ [] in
  args !! "<listname>" = Some (Some "ops") ∧
  Some "ops" ≫= (db w !!.) = None ∧
  delete {| mask_nick := "carol" |} "#chan" args w =
  (Ok (), World (db w) ∅ [Privmsg "#chan" "carol: No such ping list."]).
Proof.
  intros args w.
  assert (H1 : args !! "<listname>" = Some (Some "ops")) by reflexivity.
  assert (H2 : Some "ops" ≫= (db w !!.) = None) by reflexivity.
  split_and!; [exact H1|exact H2|].
  exact (delete_missing_list {| mask_nick := "carol" |} "#chan" args w
           (Some "ops") H1 H2).
Defined.

(** X10. [show] on a list that exists sends, to the target, the line
    "Members of <name>: " and then the wrapped text of the members joined by
    spaces, each member once and in increasing order; the store is as it
    was. *)
Theorem show_lists_sorted_members wrap mask target args w name S :
  args !! "<listname>" = Some (Some name) →
  db w !! name = Some S →
  ∃ members,
    StronglySorted String.le members ∧ NoDup members ∧
    (∀ x, x ∈ members ↔ x ∈ S) ∧
    show wrap mask target args w =
    (Ok (),
     World (db w) (channels w)
       (sent w ++
        Privmsg target (fmt2 (mask_nick mask) ("Members of " +:+ name +:+ ": "))
        :: (Privmsg target <$> wrap (join " " members)))).
Proof.
  intros Hargs Hdb. exists (sorted S).
  destruct (sorted_spec S) as (? & ? & ?). split_and!; [done..|].
  unfold show. erewrite run_bind; [|by apply run_args_getitem].
  erewrite run_bind; [|by apply run_lookup_found].
  cbv beta iota zeta. erewrite run_bind; [|reflexivity].
  rewrite run_for_each_privmsg. cbn. by rewrite <- app_assoc.
Qed.

Lemma show_lists_sorted_members_witness :
  let args : gmap string pyval := {[ "<listname>" := Some "team" ]} in
  let w := World {[ "team" := {[ "bob"; "alice" ]} ]} ∅ [] in
  args !! "<listname>" = Some (Some "team") ∧
  db w !! "team" = Some {[ "bob"; "alice" ]} ∧
  ∃ members,
    (∀ x, x ∈ members ↔ x ∈ ({[ "bob"; "alice" ]} : gset string)) ∧
    show (λ s, [s]) {| mask_nick := "carol" |} "#chan" args w =
    (Ok (),
     World (db w) ∅
       (Privmsg "#chan" "carol: Members of team: "
        :: (Privmsg "#chan" <$> [join " " members]))).
Proof.
  intros args w.
  assert (H1 : args !! "<listname>" = Some (Some "team")) by reflexivity.
  assert (H2 : db w !! "team" = Some {[ "bob"; "alice" ]}) by reflexivity.
  split_and!; [exact H1|exact H2|].
  destruct (show_lists_sorted_members (λ s, [s]) {| mask_nick := "carol" |}
              "#chan" args w "team" {[ "bob"; "alice" ]} H1 H2)
    as (members & _ & _ & Hin & Hrun).
  exists members. by split.
Defined.

(** X11. [pinglists], whatever its arguments, sends to the target the line
    "Current ping lists: " and then the wrapped text of the names of the
    lists joined by spaces, every list once and in increasing order; the
    store is as it was. *)
Theorem pinglists_lists_sorted_names wrap mask target args w :
  ∃ names,
    StronglySorted String.le names ∧ NoDup names ∧
    (∀ x, x ∈ names ↔ is_Some (db w !! x)) ∧
    pinglists wrap mask target args w =
    (Ok (),
     World (db w) (channels w)
       (sent w ++
        Privmsg target (fmt2 (mask_nick mask) "Current ping lists: ")
        :: (Privmsg target <$> wrap (join " " names)))).
Proof.
  exists (sorted (dom (db w))).
  destruct (sorted_spec (dom (db w))) as (? & ? & Hin).
  split_and!; [done..| |].
  - intros x. rewrite Hin. apply elem_of_dom.
  - unfold pinglists. cbv zeta. erewrite run_bind; [|reflexivity].
    erewrite run_bind; [|reflexivity]. rewrite run_for_each_privmsg. cbn.
    by rewrite <- app_assoc.
Qed.

(** X12. After [delete] took a list out, [show] with the same arguments
    answers "No such ping list." *)
Theorem delete_then_show_not_found wrap mask target args w name S :
  args !! "<listname>" = Some (Some name) →
  db w !! name = Some S →
  let w1 := (delete mask target args w).2 in
  show wrap mask target args w1 =
  (Ok (),
   World (db w1) (channels w1)
     (sent w ++
      [Privmsg target
         (fmt2 (mask_nick mask) ("Pinglist " +:+ name +:+ " deleted."));
       Privmsg target (fmt2 (mask_nick mask) "No such ping list.")])).
Proof.
  intros Hargs Hdb w1.
  subst w1. rewrite (run_delete_found mask target args w name S Hargs Hdb).
  cbn [snd]. unfold show.
  erewrite run_bind; [|by apply run_args_getitem].
  erewrite run_bind; [|apply run_lookup_missing; apply lookup_delete_eq].
  cbv beta iota zeta. unfold privmsg. cbn. by rewrite <- app_assoc.
Qed.

Lemma delete_then_show_not_found_witness :
  let args : gmap string pyval := {[ "<listname>" := Some "foo" ]} in
  let w := World {[ "foo" := ∅ ]} ∅ [] in
  let mask := {| mask_nick := "carol" |} in
  args !! "<listname>" = Some (Some "foo") ∧
  db w !! "foo" = Some ∅ ∧
  sent (show (λ s, [s]) mask "#chan" args (delete mask "#chan" args w).2).2 =
  [Privmsg "#chan" "carol: Pinglist foo deleted.";
   Privmsg "#chan" "carol: No such ping list."].
Proof.
  intros args w mask.
  assert (H1 : args !! "<listname>" = Some (Some "foo")) by reflexivity.
  assert (H2 : db w !! "foo" = Some ∅) by reflexivity.
  split_and!; [exact H1|exact H2|].
  exact (f_equal (λ r, sent r.2)
           (delete_then_show_not_found (λ s, [s]) mask "#chan" args w "foo" ∅
              H1 H2)).
Defined.

(** ** [create] and [remove] as the source has them *)

(** X13. [create] with a name that is not made of word characters answers
    "List names can only contain alphanumeric characters." and touches
    nothing; the name is checked before [nicks] is read, so this holds
    whatever [nicks] is. *)
Theorem create_rejects_invalid_name isNick nicks mask target args w name :
  args !! "<listname>" = Some (Some name) →
  ¬ spec_valid_listname name →
  create_from isNick nicks mask target args w =
  (Ok (),
   World (db w) (channels w)
     (sent w ++
      [Privmsg target
         (fmt2 (mask_nick mask)
            "List names can only contain alphanumeric characters.")])).
Proof.
  intros Hargs Hname%validate_listname_false. unfold create_from.
  erewrite run_bind; [|by apply run_args_getitem].
  erewrite run_bind; [|unfold lift; by rewrite Hname]. reflexivity.
Qed.

Lemma create_rejects_invalid_name_witness :
  let args : gmap string pyval := {[ "<listname>" := Some "a b" ]} in
  let w := World ∅ ∅ [] in
  args !! "<listname>" = Some (Some "a b") ∧
  ¬ spec_valid_listname "a b" ∧
  create (λ _, true) {| mask_nick := "carol" |} "#chan" args w =
  (Ok (),
   World ∅ ∅
     [Privmsg "#chan"
        "carol: List names can only contain alphanumeric characters."]).
Proof.
  intros args w.
  assert (H1 : args !! "<listname>" = Some (Some "a b")) by reflexivity.
  assert (H2 : ¬ spec_valid_listname "a b").
  { apply validate_listname_false. reflexivity. }
  split_and!; [exact H1|exact H2|].
  exact (create_rejects_invalid_name (λ _, true) Unbound
           {| mask_nick := "carol" |} "#chan" args w "a b" H1 H2).
Defined.

(** X14. [create] with a valid name, as the source has it, stops at its
    first use of [nicks]: it raises [UnboundLocalError], sends nothing and
    leaves the store as it was, whether a list of that name exists or not. *)
Theorem create_valid_name_raises isNick mask target args w name :
  args !! "<listname>" = Some (Some name) →
  spec_valid_listname name →
  create isNick mask target args w = (Raise (UnboundLocalError "nicks"), w).
Proof.
  intros Hargs Hname%validate_listname_true. unfold create, create_from.
  erewrite run_bind; [|by apply run_args_getitem].
  erewrite run_bind; [|unfold lift; by rewrite Hname]. reflexivity.
Qed.

Lemma create_valid_name_raises_witness :
  let args : gmap string pyval := {[ "<listname>" := Some "team_2" ]} in
  let w := World ∅ ∅ [] in
  args !! "<listname>" = Some (Some "team_2") ∧
  spec_valid_listname "team_2" ∧
  create (λ _, true) {| mask_nick := "carol" |} "#chan" args w =
  (Raise (UnboundLocalError "nicks"), w).
Proof.
  intros args w.
  assert (H1 : args !! "<listname>" = Some (Some "team_2")) by reflexivity.
  assert (H2 : spec_valid_listname "team_2").
  { apply validate_listname_true. reflexivity. }
  split_and!; [exact H1|exact H2|].
  exact (create_valid_name_raises (λ _, true) {| mask_nick := "carol" |}
           "#chan" args w "team_2" H1 H2).
Defined.

(** X15. No path of [create] adds or removes a list, whatever [nicks] holds:
    the names of the lists after it are the names before it. *)
Theorem create_never_changes_list_names isNick nicks mask target args w :
  dom (db (create_from isNick nicks mask target args w).2) = dom (db w).
Proof. apply create_from_same_keys. Qed.

(** X16. [remove], as the source has it: on a name no list has it answers
    "No such ping list."; on a list that exists it stops at its first use
    of [nicks], so nothing is removed and nothing is answered. *)
Theorem remove_answers_or_raises isNick mask target args w listname :
  args !! "<listname>" = Some listname →
  (listname ≫= (db w !!.) = None →
   remove isNick mask target args w =
   (Ok (),
    World (db w) (channels w)
      (sent w ++
       [Privmsg target (fmt2 (mask_nick mask) "No such ping list.")]))) ∧
  (is_Some (listname ≫= (db w !!.)) →
   remove isNick mask target args w = (Raise (UnboundLocalError "nicks"), w)).
Proof.
  intros Hargs. unfold remove, remove_from.
  erewrite run_bind; [|by apply run_args_getitem]. split.
  - intros Hdb. by erewrite run_bind; [|by apply run_lookup_missing].
  - intros [S Hdb]. destruct listname as [name|]; [|done].
    by erewrite run_bind; [|by apply run_lookup_found].
Qed.

Lemma remove_answers_or_raises_witness :
  let args : gmap string pyval := {[ "<listname>" := Some "team" ]} in
  let w := World {[ "team" := {[ "alice" ]} ]} ∅ [] in
  args !! "<listname>" = Some (Some "team") ∧
  is_Some (Some "team" ≫= (db w !!.)) ∧
  remove (λ _, true) {| mask_nick := "alice" |} "#chan" args w =
  (Raise (UnboundLocalError "nicks"), w).
Proof.
  intros args w.
  assert (H1 : args !! "<listname>" = Some (Some "team")) by reflexivity.
  assert (H2 : is_Some (Some "team" ≫= (db w !!.))) by (by eexists).
  split_and!; [exact H1|exact H2|].
  exact (proj2 (remove_answers_or_raises (λ _, true) {| mask_nick := "alice" |}
                  "#chan" args w (Some "team") H1) H2).
Defined.

(** ** [doping] past its argument lookups *)

(** X17. When the arguments bind ["<message"], the list has a member and
    the destination is a known channel, [doping] sends to the destination
    the wrapped text of the resolved nicks joined by spaces, and nothing
    else; the store is as it was. *)
Theorem doping_sends_resolved wrap mask target args w name message S P :
  args !! "<listname>" = Some (Some name) →
  args !! "<message" = Some message →
  db w !! name = Some S →
  S ≠ ∅ →
  channels w !! default target (args_get args "<channel>") = Some P →
  ∃ l,
    StronglySorted String.le l ∧ NoDup l ∧ (∀ x, x ∈ l ↔ resolved S P x) ∧
    doping wrap mask target args w =
    (Ok (),
     World (db w) (channels w)
       (sent w ++
        (Privmsg (default target (args_get args "<channel>"))
           <$> wrap (join " " l)))).
Proof.
  intros Hargs Hmsg Hdb HS Hchan.
  destruct (resolve_spec S P) as (l & Hl & ? & ? & ?).
  exists l. split_and!; [done..|]. unfold doping.
  erewrite run_bind; [|by apply run_args_getitem].
  cbv zeta. erewrite run_bind; [|by apply run_args_getitem].
  erewrite run_bind; [|by apply run_lookup_found].
  cbv beta iota. rewrite bool_decide_eq_false_2 by done.
  erewrite run_bind; [|reflexivity]. cbv beta.
  assert (Htarget : match args_get args "<channel>" with
                    | Some c => c | None => target end
                    = default target (args_get args "<channel>"))
    by (by destruct (args_get args "<channel>")).
  rewrite Htarget. unfold channel_users. cbn [channels]. rewrite Hchan.
  erewrite run_bind; [|unfold lift; by rewrite Hl].
  apply run_for_each_privmsg.
Qed.

Lemma doping_sends_resolved_witness :
  let args : gmap string pyval :=
    {[ "<listname>" := Some "team"; "<channel>" := Some "#ops";
       "<message" := Some "hi" ]} in
  let w := World {[ "team" := {[ "alice" ]} ]}
                 {[ "#ops" := {[ "alice_"; "carol" ]} ]} [] in
  args !! "<listname>" = Some (Some "team") ∧
  args !! "<message" = Some (Some "hi") ∧
  db w !! "team" = Some {[ "alice" ]} ∧
  ({[ "alice" ]} : gset string) ≠ ∅ ∧
  channels w !! default "#chan" (args_get args "<channel>")
    = Some {[ "alice_"; "carol" ]} ∧
  ∃ l, (∀ x, x ∈ l ↔ resolved {[ "alice" ]} {[ "alice_"; "carol" ]} x) ∧
       sent (doping (λ s, [s]) {| mask_nick := "dave" |} "#chan" args w).2
       = [Privmsg "#ops" (join " " l)].
Proof.
  intros args w.
  assert (H1 : args !! "<listname>" = Some (Some "team")) by reflexivity.
  assert (H2 : args !! "<message" = Some (Some "hi")) by reflexivity.
  assert (H3 : db w !! "team" = Some {[ "alice" ]}) by reflexivity.
  assert (H4 : ({[ "alice" ]} : gset string) ≠ ∅) by (by vm_compute).
  assert (H5 : channels w !! default "#chan" (args_get args "<channel>")
               = Some {[ "alice_"; "carol" ]}) by reflexivity.
  split_and!; [exact H1|exact H2|exact H3|exact H4|exact H5|].
  destruct (doping_sends_resolved (λ s, [s]) {| mask_nick := "dave" |} "#chan"
              args w "team" (Some "hi") {[ "alice" ]} {[ "alice_"; "carol" ]}
              H1 H2 H3 H4 H5) as (l & _ & _ & Hin & Hrun).
  exists l. split; [exact Hin|]. by rewrite Hrun.
Defined.

(** X18. When the destination is not a known channel and the list has a
    member, [doping] raises [KeyError] on the destination and sends
    nothing. *)
Theorem doping_unknown_channel wrap mask target args w name message S :
  args !! "<listname>" = Some (Some name) →
  args !! "<message" = Some message →
  db w !! name = Some S →
  S ≠ ∅ →
  channels w !! default target (args_get args "<channel>") = None →
  doping wrap mask target args w =
  (Raise (KeyError (Some (default target (args_get args "<channel>")))), w).
Proof.
  intros Hargs Hmsg Hdb HS Hchan. unfold doping.
  erewrite run_bind; [|by apply run_args_getitem].
  cbv zeta. erewrite run_bind; [|by apply run_args_getitem].
  erewrite run_bind; [|by apply run_lookup_found].
  cbv beta iota. rewrite bool_decide_eq_false_2 by done.
  erewrite run_bind; [|reflexivity]. cbv beta.
  assert (Htarget : match args_get args "<channel>" with
                    | Some c => c | None => target end
                    = default target (args_get args "<channel>"))
    by (by destruct (args_get args "<channel>")).
  rewrite Htarget. unfold channel_users. cbn [channels]. rewrite Hchan.
  erewrite run_bind_raise; [done|]. unfold lift.
  by rewrite (proj2 resolve_lookup_edges _ S HS).
Qed.

Lemma doping_unknown_channel_witness :
  let args : gmap string pyval :=
    {[ "<listname>" := Some "team"; "<message" := Some "hi" ]} in
  let w := World {[ "team" := {[ "alice" ]} ]} ∅ [] in
  args !! "<listname>" = Some (Some "team") ∧
  args !! "<message" = Some (Some "hi") ∧
  db w !! "team" = Some {[ "alice" ]} ∧
  ({[ "alice" ]} : gset string) ≠ ∅ ∧
  channels w !! default "#chan" (args_get args "<channel>") = None ∧
  doping (λ s, [s]) {| mask_nick := "dave" |} "#chan" args w =
  (Raise (KeyError (Some "#chan")), w).
Proof.
  intros args w.
  assert (H1 : args !! "<listname>" = Some (Some "team")) by reflexivity.
  assert (H2 : args !! "<message" = Some (Some "hi")) by reflexivity.
  assert (H3 : db w !! "team" = Some {[ "alice" ]}) by reflexivity.
  assert (H4 : ({[ "alice" ]} : gset string) ≠ ∅) by (by vm_compute).
  assert (H5 : channels w !! default "#chan" (args_get args "<channel>") = None)
    by reflexivity.
  split_and!; [exact H1|exact H2|exact H3|exact H4|exact H5|].
  exact (doping_unknown_channel (λ s, [s]) {| mask_nick := "dave" |} "#chan"
           args w "team" (Some "hi") {[ "alice" ]} H1 H2 H3 H4 H5).
Defined.

(** ** Instances of the lemmas on [add] and [doping] *)

(** X19. When the arguments bind ["<message"], [doping] on an empty list
    answers "Ping list is empty." to the destination and does nothing else,
    whatever the channels are: the destination need not be a known
    channel. *)
Theorem doping_empty_list_ignores_channels wrap mask target args name message
    (store chans : gmap string (gset string)) (log : list effect) :
  args !! "<listname>" = Some (Some name) →
  args !! "<message" = Some message →
  store !! name = Some ∅ →
  doping wrap mask target args (World store chans log) =
  (Ok (),
   World store chans
     (log ++
      [Privmsg (default target (args_get args "<channel>"))
         (fmt2 (mask_nick mask) "Ping list is empty.")])).
Proof.
  intros Hargs Hmsg Hdb.
  by rewrite (doping_empty_list wrap mask target args (World store chans log)
                name message Hargs Hmsg Hdb).
Qed.

Lemma doping_empty_list_ignores_channels_witness :
  let args : gmap string pyval :=
    {[ "<listname>" := Some "team"; "<message" := Some "hi" ]} in
  let store : gmap string (gset string) := {[ "team" := ∅ ]} in
  args !! "<listname>" = Some (Some "team") ∧
  args !! "<message" = Some (Some "hi") ∧
  store !! "team" = Some ∅ ∧
  doping (λ s, [s]) {| mask_nick := "dave" |} "#chan" args (World store ∅ []) =
  (Ok (), World store ∅ [Privmsg "#chan" "dave: Ping list is empty."]).
Proof.
  intros args store.
  assert (H1 : args !! "<listname>" = Some (Some "team")) by reflexivity.
  assert (H2 : args !! "<message" = Some (Some "hi")) by reflexivity.
  assert (H3 : store !! "team" = Some ∅) by reflexivity.
  split_and!; [exact H1|exact H2|exact H3|].
  exact (doping_empty_list_ignores_channels (λ s, [s]) {| mask_nick := "dave" |}
           "#chan" args "team" (Some "hi") store ∅ [] H1 H2 H3).
Defined.

Lemma doping_no_message_key_witness :
  let args : gmap string pyval :=
    {[ "<listname>" := Some "team"; "<channel>" := None;
       "<message>" := Some "hi" ]} in
  let w := World {[ "team" := {[ "alice" ]} ]} {[ "#chan" := ∅ ]} [] in
  args !! "<listname>" = Some (Some "team") ∧
  args !! "<message" = None ∧
  doping (λ s, [s]) {| mask_nick := "dave" |} "#chan" args w =
  (Raise (KeyError (Some "<message")), w).
Proof.
  intros args w.
  assert (H1 : args !! "<listname>" = Some (Some "team")) by reflexivity.
  assert (H2 : args !! "<message" = None) by reflexivity.
  split_and!; [exact H1|exact H2|].
  exact (doping_no_message_key (λ s, [s]) {| mask_nick := "dave" |} "#chan"
           args w (Some "team") H1 H2).
Defined.

Lemma add_unbound_witness :
  let args : gmap string pyval := {[ "<listname>" := Some "team" ]} in
  let w := World {[ "team" := {[ "alice" ]} ]} ∅ [] in
  args !! "<listname>" = Some (Some "team") ∧
  db w !! "team" = Some {[ "alice" ]} ∧
  add (λ _, true) {| mask_nick := "carol" |} "#chan" args w =
  (Raise (UnboundLocalError "nicks"), w).
Proof.
  intros args w.
  assert (H1 : args !! "<listname>" = Some (Some "team")) by reflexivity.
  assert (H2 : db w !! "team" = Some {[ "alice" ]}) by reflexivity.
  split_and!; [exact H1|exact H2|].
  exact (add_unbound (λ _, true) {| mask_nick := "carol" |} "#chan" args w
           "team" {[ "alice" ]} H1 H2).
Defined.
